(** * based-poker: the table engine of [src/lib/poker-utils.ts] and the
      betting handlers of [src/components/game/GameControls.tsx]

    Conventions of the embedding.

    - Chip amounts ([chips], [bet], [pot], [currentBet], blinds, a raise
      target) are JavaScript numbers holding integers; they are modelled as
      [Z].  Nothing in the code keeps them non-negative, so neither does the
      model.
    - Indices ([currentPlayerIndex], [dealerIndex], [activePlayerIndex]) are
      JavaScript numbers produced by [+] and [%] from array positions; they
      range over the naturals and [NaN] (the value of [x % 0]).
    - Arrays are lists in array order: index 0 is the head and the element
      removed by [Array.prototype.pop] is the last one.
    - A function that can raise a [TypeError] or loop forever returns a
      [Run]; a handler that may return without calling [onGameStateChange]
      returns [Run (option GameState)].
    - Players' hands are threaded as values.  [dealCards] pushes onto the
      [cards] array of each player object in place; every constructor of
      players in the repository ([initializeGame], [handleNewGame]) gives
      each player an array literal of its own, so the hands of two seats of
      one state are never the same array.
    - [shuffleDeck] is additionally given at the level of references
      ([Refs.shuffleDeck]), where the copy [[...deck]] and the in-place
      swaps on that copy are explicit. *)

From Stdlib Require Import ZArith.
From stdpp Require Import base decidable option list strings pretty gmap.

Open Scope Z_scope.

(** ** Cards ([types.ts]: Suit, Rank, Card) *)

Inductive Suit := hearts | diamonds | clubs | spades.
Inductive Rank := R2 | R3 | R4 | R5 | R6 | R7 | R8 | R9 | R10 | RJ | RQ | RK | RA.

#[global] Instance Suit_eq_dec : EqDecision Suit.
Proof. solve_decision. Defined.
#[global] Instance Rank_eq_dec : EqDecision Rank.
Proof. solve_decision. Defined.

Record Card := mkCard { suit : Suit; rank : Rank; faceUp : bool }.

#[global] Instance Card_eq_dec : EqDecision Card.
Proof. solve_decision. Defined.

(** [{ ...card, faceUp: b }] *)
Definition withFaceUp (b : bool) (c : Card) : Card :=
  {| suit := suit c; rank := rank c; faceUp := b |}.

(** The identity of a card: [faceUp] is presentation only. *)
Definition face (c : Card) : Suit * Rank := (suit c, rank c).

(** ** Math.random

    One call of [Math.random()] yields a number [u] with [0 <= u < 1]; it is
    modelled as the fraction [num / den].  [Math.floor(u * n)] is then
    [num * n / den].  Every index the expression can produce is produced by
    some fraction, so a statement over all random sources covers all runs.
    A random source gives the result of the k-th call. *)

Record Unit01 := mkUnit01 { num : nat; den : nat; num_lt_den : (num < den)%nat }.

Definition RandomSource := nat → Unit01.

(** [Math.floor(Math.random() * n)] *)
Definition floorRandom (u : Unit01) (n : nat) : nat := (num u * n / den u)%nat.

(** ** Deck construction and shuffling ([poker-utils.ts], lines 4-40) *)

Definition suits : list Suit := [hearts; diamonds; clubs; spades].
Definition ranks : list Rank := [R2; R3; R4; R5; R6; R7; R8; R9; R10; RJ; RQ; RK; RA].

(** The array built by the two nested [for ... of] loops of [createDeck]. *)
Definition orderedDeck : list Card :=
  flat_map (λ s, fmap (λ r, {| suit := s; rank := r; faceUp := false |}) ranks) suits.

(** [[a[i], a[j]] = [a[j], a[i]]]: the right-hand side is read first, then
    [a[i]] and [a[j]] are written in that order.  Inside [shuffleDeck] both
    indices are valid ([j <= i < a.length], lemma [floorRandom_lt]), so the
    branch for a missing element is not reached there. *)
Definition swap (i j : nat) (a : list Card) : list Card :=
  match a !! j, a !! i with
  | Some aj, Some ai => <[j := ai]> (<[i := aj]> a)
  | _, _ => a
  end.

(** The loop [for (let i = length - 1; i > 0; i--)] with [i] the loop
    variable and [k] the number of calls of [Math.random] made so far. *)
Fixpoint fisherYates (rnd : RandomSource) (k i : nat) (a : list Card) : list Card :=
  match i with
  | O => a
  | S i' => fisherYates rnd (S k) i' (swap i (floorRandom (rnd k) (i + 1)) a)
  end.

(** The contents of the array [shuffleDeck] returns. *)
Definition shuffleDeck (rnd : RandomSource) (deck : list Card) : list Card :=
  fisherYates rnd 0 (length deck - 1) deck.

Definition createDeck (rnd : RandomSource) : list Card :=
  shuffleDeck rnd orderedDeck.

(** *** shuffleDeck over a store of arrays

    Arrays live in a store and are passed by reference.  [spread] is the
    array literal [[...a]]: a new array holding the elements of [a]. *)
Module Refs.

Definition loc := positive.
Abbreviation store := (gmap loc (list Card)).

Definition spread (a : loc) (σ : store) : loc * store :=
  let l := fresh (dom σ) in (l, <[l := default [] (σ !! a)]> σ).

(** One iteration of the loop body on the array at [l]. *)
Definition swapAt (l : loc) (i j : nat) (σ : store) : store :=
  alter (swap i j) l σ.

Fixpoint fisherYatesAt (rnd : RandomSource) (k i : nat) (l : loc) (σ : store) : store :=
  match i with
  | O => σ
  | S i' => fisherYatesAt rnd (S k) i' l (swapAt l i (floorRandom (rnd k) (i + 1)) σ)
  end.

Definition shuffleDeck (rnd : RandomSource) (deck : loc) (σ : store) : loc * store :=
  let '(shuffledDeck, σ1) := spread deck σ in
  (shuffledDeck,
   fisherYatesAt rnd 0 (length (default [] (σ1 !! shuffledDeck)) - 1) shuffledDeck σ1).

End Refs.

(** ** Players and table state ([types.ts]: Player, GameStage, GameState)

    [types.ts] is not among the sources; the records list the fields the two
    source files read and write. *)

Record Player := mkPlayer {
  id : string;
  name : string;
  chips : Z;
  cards : list Card;
  isActive : bool;
  isDealer : bool;
  isSmallBlind : bool;
  isBigBlind : bool;
  isTurn : bool;
  isAllIn : bool;
  bet : Z;
  avatarUrl : option string
}.

Inductive GameStage := preflop | flop | turn | river | showdown | ended.

#[global] Instance GameStage_eq_dec : EqDecision GameStage.
Proof. solve_decision. Defined.

(** A JavaScript number used as an array index. *)
Inductive Index := Idx (n : nat) | NaN.

#[global] Instance Index_eq_dec : EqDecision Index.
Proof. solve_decision. Defined.

(** [a + k] *)
Definition idxAdd (a : Index) (k : nat) : Index :=
  match a with Idx n => Idx (n + k) | NaN => NaN end.

(** [a % n], with [x % 0 = NaN] *)
Definition idxMod (a : Index) (n : nat) : Index :=
  match a, n with
  | Idx x, S _ => Idx (x mod n)
  | _, _ => NaN
  end.

(** [index === a] for an array position [index] *)
Definition idxIs (index : nat) (a : Index) : bool :=
  match a with Idx n => bool_decide (index = n) | NaN => false end.

Record GameState := mkGameState {
  players : list Player;
  communityCards : list Card;
  deck : list Card;
  pot : Z;
  currentBet : Z;
  stage : GameStage;
  currentPlayerIndex : Index;
  dealerIndex : Index;
  smallBlindAmount : Z;
  bigBlindAmount : Z;
  activePlayerIndex : option Index   (* absent until a handler sets it *)
}.

(** Object spreads [{ ...x, field: v }]. *)
Definition withCards (v : list Card) (p : Player) : Player :=
  mkPlayer (id p) (name p) (chips p) v (isActive p) (isDealer p) (isSmallBlind p)
           (isBigBlind p) (isTurn p) (isAllIn p) (bet p) (avatarUrl p).
Definition withTurn (v : bool) (p : Player) : Player :=
  mkPlayer (id p) (name p) (chips p) (cards p) (isActive p) (isDealer p) (isSmallBlind p)
           (isBigBlind p) v (isAllIn p) (bet p) (avatarUrl p).
Definition withPlayers (v : list Player) (s : GameState) : GameState :=
  mkGameState v (communityCards s) (deck s) (pot s) (currentBet s) (stage s)
              (currentPlayerIndex s) (dealerIndex s) (smallBlindAmount s)
              (bigBlindAmount s) (activePlayerIndex s).
Definition withPot (v : Z) (s : GameState) : GameState :=
  mkGameState (players s) (communityCards s) (deck s) v (currentBet s) (stage s)
              (currentPlayerIndex s) (dealerIndex s) (smallBlindAmount s)
              (bigBlindAmount s) (activePlayerIndex s).
Definition withCurrentBet (v : Z) (s : GameState) : GameState :=
  mkGameState (players s) (communityCards s) (deck s) (pot s) v (stage s)
              (currentPlayerIndex s) (dealerIndex s) (smallBlindAmount s)
              (bigBlindAmount s) (activePlayerIndex s).
Definition withDeck (v : list Card) (s : GameState) : GameState :=
  mkGameState (players s) (communityCards s) v (pot s) (currentBet s) (stage s)
              (currentPlayerIndex s) (dealerIndex s) (smallBlindAmount s)
              (bigBlindAmount s) (activePlayerIndex s).
Definition withCommunityCards (v : list Card) (s : GameState) : GameState :=
  mkGameState (players s) v (deck s) (pot s) (currentBet s) (stage s)
              (currentPlayerIndex s) (dealerIndex s) (smallBlindAmount s)
              (bigBlindAmount s) (activePlayerIndex s).
Definition withCurrentPlayerIndex (v : Index) (s : GameState) : GameState :=
  mkGameState (players s) (communityCards s) (deck s) (pot s) (currentBet s) (stage s)
              v (dealerIndex s) (smallBlindAmount s)
              (bigBlindAmount s) (activePlayerIndex s).

(** ** Results of running code *)

Inductive Run (A : Type) :=
  | Returns (a : A)
  | Throws          (* an uncaught TypeError *)
  | Diverges.       (* the loop never exits *)
Arguments Returns {A} a.
Arguments Throws {A}.
Arguments Diverges {A}.

(** ** Dealing ([poker-utils.ts], lines 43-100) *)

(** [a.pop()]: the removed element ([None] for [undefined]) and the array
    that is left. *)
Definition pop (a : list Card) : option Card * list Card := (last a, removelast a).

(** The inner loop of [dealCards]: one card to each active player, in table
    order.  A card object is always truthy, so [if (card)] fails exactly when
    the deck was empty. *)
Fixpoint dealRound (ps : list Player) (newDeck : list Card) : list Player * list Card :=
  match ps with
  | [] => ([], newDeck)
  | p :: rest =>
      if isActive p then
        match pop newDeck with
        | (Some card, d) =>
            let '(rest', d') := dealRound rest d in
            (withCards (cards p ++ [withFaceUp false card]) p :: rest', d')
        | (None, d) =>
            let '(rest', d') := dealRound rest d in (p :: rest', d')
        end
      else
        let '(rest', d') := dealRound rest newDeck in (p :: rest', d')
  end.

Definition dealCards (gameState : GameState) : GameState :=
  let '(ps1, d1) := dealRound (players gameState) (deck gameState) in
  let '(ps2, d2) := dealRound ps1 d1 in
  withDeck d2 (withPlayers ps2 gameState).

(** The loop [for (let i = 0; i < cardsToAdd; i++)] of [dealCommunityCards]. *)
Fixpoint dealCommunity (cardsToAdd : nat) (newDeck newCommunityCards : list Card)
  : list Card * list Card :=
  match cardsToAdd with
  | O => (newDeck, newCommunityCards)
  | S n =>
      match pop newDeck with
      | (Some card, d) => dealCommunity n d (newCommunityCards ++ [withFaceUp true card])
      | (None, d) => dealCommunity n d newCommunityCards
      end
  end.

Definition dealCommunityCards (gameState : GameState) : GameState :=
  let deal cardsToAdd :=
    let '(d, cc) := dealCommunity cardsToAdd (deck gameState) (communityCards gameState) in
    withDeck d (withCommunityCards cc gameState) in
  match stage gameState with
  | flop => deal 3%nat
  | turn | river => deal 1%nat
  | _ => gameState
  end.

(** ** initializeGame ([poker-utils.ts], lines 103-150) *)

(** [players[i].bet = amount; players[i].chips -= amount] *)
Definition postBlind (amount : Z) (p : Player) : Player :=
  mkPlayer (id p) (name p) (chips p - amount) (cards p) (isActive p) (isDealer p)
           (isSmallBlind p) (isBigBlind p) (isTurn p) (isAllIn p) amount (avatarUrl p).

Definition newPlayer (count : nat) (initialChips : Z) (i : nat) : Player :=
  {| id := "player-" +:+ pretty i;
     name := "Player " +:+ pretty (i + 1)%nat;
     chips := initialChips;
     cards := [];
     isActive := true;
     isDealer := bool_decide (i = 0%nat);
     isSmallBlind := bool_decide (i = 1%nat);
     isBigBlind := bool_decide (i = 2%nat) || (bool_decide (count = 2%nat) && bool_decide (i = 1%nat));
     isTurn := bool_decide (i = 3%nat)
               || (bool_decide (count = 2%nat) && bool_decide (i = 0%nat))
               || (bool_decide (count = 3%nat) && bool_decide (i = 0%nat));
     isAllIn := false;
     bet := 0;
     avatarUrl := None |}.

Definition initializeGame (rnd : RandomSource) (playerCount : nat)
    (initialChips smallBlind bigBlind : Z) : GameState :=
  let count := Nat.min (Nat.max playerCount 2) 10 in
  let players0 := fmap (newPlayer count initialChips) (seq 0 count) in
  let smallBlindIndex := (1 mod count)%nat in
  let bigBlindIndex := (2 mod count)%nat in
  let players1 := alter (postBlind smallBlind) smallBlindIndex players0 in
  let players2 := alter (postBlind bigBlind) bigBlindIndex players1 in
  {| players := players2;
     communityCards := [];
     deck := createDeck rnd;
     pot := smallBlind + bigBlind;
     currentBet := bigBlind;
     stage := preflop;
     currentPlayerIndex := Idx (3 mod count);
     dealerIndex := Idx 0;
     smallBlindAmount := smallBlind;
     bigBlindAmount := bigBlind;
     activePlayerIndex := None |}.

(** ** nextPlayer ([poker-utils.ts], lines 171-191) *)

(** The [while] loop: [nextIndex] is the loop variable, [fuel] bounds the
    number of iterations the model follows.  Reading [.isActive] of a
    missing element raises a TypeError. *)
Fixpoint seekActive (fuel : nat) (ps : list Player) (currentPlayerIndex : Index)
    (nextIndex : nat) : Run nat :=
  match ps !! nextIndex with
  | None => Throws
  | Some p =>
      if negb (isActive p) && negb (idxIs nextIndex currentPlayerIndex) then
        match fuel with
        | O => Diverges
        | S fuel' =>
            seekActive fuel' ps currentPlayerIndex ((nextIndex + 1) mod length ps)%nat
        end
      else Returns nextIndex
  end.

(** [players.map((player, index) => ({ ...player, isTurn: index === nextIndex }))] *)
Definition markTurn (nextIndex : nat) (ps : list Player) : list Player :=
  imap (λ index player, withTurn (bool_decide (index = nextIndex)) player) ps.

(** [nextPlayer] with an explicit bound on the iterations of its loop. *)
Definition nextPlayerWithin (fuel : nat) (gameState : GameState) : Run GameState :=
  match idxMod (idxAdd (currentPlayerIndex gameState) 1) (length (players gameState)) with
  | NaN => Throws    (* players[NaN] is undefined *)
  | Idx start =>
      match seekActive fuel (players gameState) (currentPlayerIndex gameState) start with
      | Returns nextIndex =>
          Returns (withCurrentPlayerIndex (Idx nextIndex)
                     (withPlayers (markTurn nextIndex (players gameState)) gameState))
      | Throws => Throws
      | Diverges => Diverges
      end
  end.

(** As many iterations as there are seats decide the loop: it has exited by
    then or never exits (lemma [nextPlayerWithin_stable]). *)
Definition nextPlayer (gameState : GameState) : Run GameState :=
  nextPlayerWithin (length (players gameState)) gameState.

(** ** The betting handlers ([GameControls.tsx], lines 24-127)

    The component reads [gameState], [currentPlayerId] (an optional prop) and
    [betAmount] (its own state).  A handler either returns early, leaving the
    table as it is ([Returns None]), or passes one new state to
    [onGameStateChange] ([Returns (Some s)]). *)

(** Truthiness of the optional string prop: [undefined] and [""] are falsy. *)
Definition truthyId (currentPlayerId : option string) : bool :=
  match currentPlayerId with
  | Some pid => negb (bool_decide (pid = ""))
  | None => false
  end.

(** [player.id === currentPlayerId] *)
Definition hasId (currentPlayerId : option string) (p : Player) : bool :=
  bool_decide (currentPlayerId = Some (id p)).

(** [currentPlayerId ? players.find(p => p.id === currentPlayerId) : undefined],
    with the position at which [find] stops. *)
Definition currentSeat (gameState : GameState) (currentPlayerId : option string)
  : option (nat * Player) :=
  if truthyId currentPlayerId
  then list_find (λ p, hasId currentPlayerId p = true) (players gameState)
  else None.

Definition currentPlayer (gameState : GameState) (currentPlayerId : option string)
  : option Player :=
  snd <$> currentSeat gameState currentPlayerId.

(** [currentPlayer?.isTurn || false] *)
Definition isPlayerTurn (gameState : GameState) (currentPlayerId : option string) : bool :=
  match currentPlayer gameState currentPlayerId with
  | Some p => isTurn p
  | None => false
  end.

Definition allPlayersActed (gameState : GameState) : bool :=
  forallb (λ p, bool_decide (bet p = currentBet gameState) || bool_decide (chips p = 0))
          (List.filter (λ p, isActive p && negb (isAllIn p)) (players gameState)).

(** [onGameStateChange(nextPlayer(...))] *)
Definition emit (r : Run GameState) : Run (option GameState) :=
  match r with
  | Returns s => Returns (Some s)
  | Throws => Throws
  | Diverges => Diverges
  end.

(** [{ ...player, isActive: false, isTurn: false }] *)
Definition folded (p : Player) : Player :=
  mkPlayer (id p) (name p) (chips p) (cards p) false (isDealer p) (isSmallBlind p)
           (isBigBlind p) false (isAllIn p) (bet p) (avatarUrl p).

Definition handleFold (currentPlayerId : option string) (gameState : GameState)
  : Run (option GameState) :=
  if negb (isPlayerTurn gameState currentPlayerId) || negb (truthyId currentPlayerId)
  then Returns None
  else
    let updatedPlayers :=
      fmap (λ player, if hasId currentPlayerId player then folded player else player)
           (players gameState) in
    emit (nextPlayer (withPlayers updatedPlayers gameState)).

(** [currentPlayer?.bet !== gameState.currentBet] *)
Definition betDiffers (cp : option Player) (currentBet : Z) : bool :=
  match cp with
  | Some p => negb (bool_decide (bet p = currentBet))
  | None => true
  end.

Definition handleCheck (currentPlayerId : option string) (gameState : GameState)
  : Run (option GameState) :=
  if negb (isPlayerTurn gameState currentPlayerId) || negb (truthyId currentPlayerId)
  then Returns None
  else if bool_decide (0 < currentBet gameState)
          && betDiffers (currentPlayer gameState currentPlayerId) (currentBet gameState)
  then Returns None
  else emit (nextPlayer gameState).

(** [{ ...player, chips: player.chips - amount, bet: newBet, isAllIn: allIn }] *)
Definition committed (newChips newBet : Z) (allIn : bool) (p : Player) : Player :=
  mkPlayer (id p) (name p) newChips (cards p) (isActive p) (isDealer p) (isSmallBlind p)
           (isBigBlind p) (isTurn p) allIn newBet (avatarUrl p).

Definition handleCall (currentPlayerId : option string) (gameState : GameState)
  : Run (option GameState) :=
  if negb (isPlayerTurn gameState currentPlayerId) || negb (truthyId currentPlayerId)
  then Returns None
  else
    match currentPlayer gameState currentPlayerId with
    | None => Returns None
    | Some cp =>
        let amountToCall := currentBet gameState - bet cp in
        let isAllIn := bool_decide (chips cp ≤ amountToCall) in
        let actualCallAmount := if isAllIn then chips cp else amountToCall in
        let updatedPlayers :=
          fmap (λ player,
                  if hasId currentPlayerId player
                  then committed (chips player - actualCallAmount)
                                 (bet player + actualCallAmount) isAllIn player
                  else player)
               (players gameState) in
        emit (nextPlayer (withPot (pot gameState + actualCallAmount)
                            (withPlayers updatedPlayers gameState)))
    end.

Definition handleRaise (currentPlayerId : option string) (betAmount : Z)
    (gameState : GameState) : Run (option GameState) :=
  if negb (isPlayerTurn gameState currentPlayerId) || negb (truthyId currentPlayerId)
  then Returns None
  else
    match currentPlayer gameState currentPlayerId with
    | None => Returns None
    | Some cp =>
        let currentPlayerBet := bet cp in
        let amountToAdd := betAmount - currentPlayerBet in
        if bool_decide (chips cp < amountToAdd) then Returns None
        else if bool_decide (betAmount < currentBet gameState * 2) then Returns None
        else
          let updatedPlayers :=
            fmap (λ player,
                    if hasId currentPlayerId player
                    then committed (chips player - amountToAdd) betAmount
                                   (bool_decide (chips player - amountToAdd = 0)) player
                    else player)
                 (players gameState) in
          emit (nextPlayer (withCurrentBet betAmount
                              (withPot (pot gameState + amountToAdd)
                                 (withPlayers updatedPlayers gameState))))
    end.

(** A betting action as the table receives it: who clicked, and what. *)
Inductive Move := Fold | Check | Call | Raise (betAmount : Z).

Definition Action : Type := option string * Move.

Definition perform (a : Action) (gameState : GameState) : Run (option GameState) :=
  match a with
  | (who, Fold) => handleFold who gameState
  | (who, Check) => handleCheck who gameState
  | (who, Call) => handleCall who gameState
  | (who, Raise betAmount) => handleRaise who betAmount gameState
  end.

(** The table after a handler has run: the state passed to
    [onGameStateChange], or the old one when the handler returned early. *)
Definition settle (gameState : GameState) (r : Run (option GameState)) : Run GameState :=
  match r with
  | Returns (Some s) => Returns s
  | Returns None => Returns gameState
  | Throws => Throws
  | Diverges => Diverges
  end.

(** A sequence of actions, each applied to the table the previous one left. *)
Fixpoint play (actions : list Action) (gameState : GameState) : Run GameState :=
  match actions with
  | [] => Returns gameState
  | a :: rest =>
      match settle gameState (perform a gameState) with
      | Returns s => play rest s
      | Throws => Throws
      | Diverges => Diverges
      end
  end.

(** ** Starting a new hand ([GameControls.tsx], lines 159-189) *)

Definition handleNewGame (gameState : GameState) : GameState :=
  let n := length (players gameState) in
  let seat k := idxMod (idxAdd (dealerIndex gameState) k) n in
  let updatedPlayers :=
    imap (λ index player,
            {| id := id player;
               name := name player;
               chips := chips player;
               cards := [];
               isActive := true;
               isDealer := idxIs index (seat 1%nat);
               isSmallBlind := idxIs index (seat 2%nat);
               isBigBlind := idxIs index (seat 3%nat);
               isTurn := idxIs index (seat 4%nat);
               isAllIn := false;
               bet := 0;
               avatarUrl := avatarUrl player |})
         (players gameState) in
  let newState :=
    {| players := updatedPlayers;
       communityCards := [];
       deck := deck gameState;
       pot := 0;
       currentBet := bigBlindAmount gameState;
       stage := preflop;
       currentPlayerIndex := currentPlayerIndex gameState;
       dealerIndex := seat 1%nat;
       smallBlindAmount := smallBlindAmount gameState;
       bigBlindAmount := bigBlindAmount gameState;
       activePlayerIndex := Some (seat 4%nat) |} in
  dealCards newState.

(** ** The remaining functions of [poker-utils.ts] *)

(** [getNextStage] (lines 153-168) *)
Definition getNextStage (currentStage : GameStage) : GameStage :=
  match currentStage with
  | preflop => flop
  | flop => turn
  | turn => river
  | river => showdown
  | showdown | ended => ended
  end.

(** The string literals of the types [Suit] and [Rank]. *)
Definition suitName (s : Suit) : string :=
  match s with
  | hearts => "hearts" | diamonds => "diamonds" | clubs => "clubs" | spades => "spades"
  end.

Definition rankName (r : Rank) : string :=
  match r with
  | R2 => "2" | R3 => "3" | R4 => "4" | R5 => "5" | R6 => "6" | R7 => "7" | R8 => "8"
  | R9 => "9" | R10 => "10" | RJ => "J" | RQ => "Q" | RK => "K" | RA => "A"
  end.

(** [s.charAt(0)]: the first character as a string, [""] for the empty
    string. *)
Definition charAt0 (s : string) : string :=
  match s with
  | EmptyString => ""
  | String a _ => String a ""
  end.

Definition backImage : string := "/images/cards/back.svg".

(** [getCardImage] (lines 194-201) *)
Definition getCardImage (card : Card) : string :=
  if negb (faceUp card) then backImage
  else
    let suitSymbol := charAt0 (suitName (suit card)) in
    "/images/cards/" +:+ rankName (rank card) +:+ suitSymbol +:+ ".svg".

(** [getFirstAvailableSeatPosition] (lines 209-217).  The type [Room] is
    declared in [types.ts]; the function reads the [players] of the room and
    the optional [seatPosition] of each, so the model takes the type of the
    room's players and that field as parameters ([None] for [undefined]). *)
Section Seating.

Context {RoomPlayer : Type} (seatPosition : RoomPlayer → option Z).

Record Room := mkRoom { roomPlayers : list RoomPlayer }.

(** [room.players.some((player) => player.seatPosition === i)] *)
Definition seatTaken (room : Room) (i : nat) : bool :=
  existsb (λ player, bool_decide (seatPosition player = Some (Z.of_nat i)))
          (roomPlayers room).

(** The loop [for (let i = ...; i <= room.players.length; i++)] from [i]
    on, with [todo] iterations left; the value after the loop is
    [room.players.length]. *)
Fixpoint scanSeats (room : Room) (todo i : nat) : nat :=
  match todo with
  | O => length (roomPlayers room)
  | S todo' => if negb (seatTaken room i) then i else scanSeats room todo' (S i)
  end.

Definition getFirstAvailableSeatPosition (room : Room) : nat :=
  scanSeats room (length (roomPlayers room) + 1) 0.

End Seating.

Arguments mkRoom {RoomPlayer} roomPlayers.
Arguments roomPlayers {RoomPlayer} r.

(** ** The remaining controls of [GameControls.tsx] *)

(** [players[i]] for a number [i]: [undefined] (here [None]) off the array. *)
Definition playerAt (ps : list Player) (i : Index) : option Player :=
  match i with
  | Idx n => ps !! n
  | NaN => None
  end.

(** [handleNextStage] (lines 130-156).  The callback of [map] reads
    [gameState.players[gameState.dealerIndex].id] once per player, which
    raises a TypeError when there is a player and no player at
    [dealerIndex]. *)
Definition handleNextStage (gameState : GameState) : Run (option GameState) :=
  if negb (allPlayersActed gameState) then Returns None
  else
    let advance (updatedPlayers : list Player) : Run (option GameState) :=
      let nextStage := getNextStage (stage gameState) in
      let newState :=
        {| players := updatedPlayers;
           communityCards := communityCards gameState;
           deck := deck gameState;
           pot := pot gameState;
           currentBet := 0;
           stage := nextStage;
           currentPlayerIndex := currentPlayerIndex gameState;
           dealerIndex := dealerIndex gameState;
           smallBlindAmount := smallBlindAmount gameState;
           bigBlindAmount := bigBlindAmount gameState;
           activePlayerIndex := Some (dealerIndex gameState) |} in
      Returns (Some (match nextStage with
                     | flop | turn | river => dealCommunityCards newState
                     | _ => newState
                     end)) in
    match players gameState, playerAt (players gameState) (dealerIndex gameState) with
    | [], _ => advance []
    | _ :: _, None => Throws
    | _ :: _, Some dealer =>
        advance ((λ player,
                    mkPlayer (id player) (name player) (chips player) (cards player)
                             (isActive player) (isDealer player) (isSmallBlind player)
                             (isBigBlind player) (bool_decide (id player = id dealer))
                             (isAllIn player) 0 (avatarUrl player))
                   <$> players gameState)
    end.

(** When the Check and Call buttons are enabled (lines 192-193 and the
    [disabled] attributes of the two buttons), as truth values. *)
Definition canCheck (gameState : GameState) (currentPlayerId : option string) : bool :=
  bool_decide (currentBet gameState = 0)
  || match currentPlayer gameState currentPlayerId with
     | Some cp => bool_decide (bet cp = currentBet gameState)
     | None => false
     end.

Definition canCall (gameState : GameState) (currentPlayerId : option string) : bool :=
  bool_decide (0 < currentBet gameState)
  && match currentPlayer gameState currentPlayerId with
     | Some cp => bool_decide (bet cp < currentBet gameState)
     | None => false
     end.

Definition checkEnabled (gameState : GameState) (currentPlayerId : option string) : bool :=
  negb (negb (isPlayerTurn gameState currentPlayerId) || negb (canCheck gameState currentPlayerId)).

Definition callEnabled (gameState : GameState) (currentPlayerId : option string) : bool :=
  negb (negb (isPlayerTurn gameState currentPlayerId) || negb (canCall gameState currentPlayerId)).

(** The range of the bet slider, [min] and [max] (lines 263-264). *)
Definition sliderMin (gameState : GameState) : Z := currentBet gameState * 2.
Definition sliderMax (cp : Player) : Z := chips cp + bet cp.

(** ** Quantities the claims speak of *)

Definition sumZ (l : list Z) : Z := foldr Z.add 0 l.

Definition totalChips (s : GameState) : Z := sumZ (fmap chips (players s)).
Definition totalBets (s : GameState) : Z := sumZ (fmap bet (players s)).

(** [Σ chips + Σ bet + pot] *)
Definition chipsBetsPot (s : GameState) : Z := totalChips s + totalBets s + pot s.

(** [Σ chips + pot] *)
Definition chipsPot (s : GameState) : Z := totalChips s + pot s.

(** [deck.length + Σ cards.length + communityCards.length] *)
Definition cardCount (s : GameState) : nat :=
  (length (deck s) + length (concat (fmap cards (players s))) + length (communityCards s))%nat.

Definition activeCount (ps : list Player) : nat :=
  length (List.filter isActive ps).

(** [currentPlayerIndex] is the position of a seat. *)
Definition cursorValid (s : GameState) : Prop :=
  ∃ c, currentPlayerIndex s = Idx c ∧ (c < length (players s))%nat.

(** No two seats carry the same [id]. *)
Definition distinctIds (s : GameState) : Prop := NoDup (fmap id (players s)).

(** [nextPlayer] can resolve a seat: [currentPlayerIndex] is the position of
    a seat, or it is some larger integer while at least one player is
    active. *)
Definition cursorUsable (s : GameState) : Prop :=
  ∃ c, currentPlayerIndex s = Idx c ∧
       ((c < length (players s))%nat ∨ Exists (λ p, isActive p = true) (players s)).

(** ** Auxiliary notions for the proofs *)

(** What one round of [dealCards] does to a seat: only the hand changes, and
    only for an active seat. *)
Definition dealtTo (dealt : list Card) (p p' : Player) : Prop :=
  p' = withCards (cards p') p ∧
  if isActive p
  then cards p' = cards p ∨ ∃ c, c ∈ dealt ∧ cards p' = cards p ++ [withFaceUp false c]
  else cards p' = cards p.

(** Membership in the lists of cards the dealing lemmas build. *)
Ltac in_cards :=
  repeat first [ intro | progress rewrite ?elem_of_app, ?list_elem_of_singleton ]; tauto.

(** The condition of the [while] loop of [nextPlayer] at position [m]: the
    loop goes on, or it exits. *)
Definition continuesAt (ps : list Player) (cur : Index) (m : nat) : Prop :=
  ∃ p, ps !! m = Some p ∧ isActive p = false ∧ idxIs m cur = false.

Definition stopsAt (ps : list Player) (cur : Index) (m : nat) : Prop :=
  ∃ p, ps !! m = Some p ∧ (isActive p = true ∨ idxIs m cur = true).

(** What every step of a betting action leaves as it was. *)
Definition sameStakes (s s1 : GameState) : Prop :=
  chipsPot s1 = chipsPot s ∧
  totalChips s1 + totalBets s1 = totalChips s + totalBets s ∧
  id <$> players s1 = id <$> players s.

(** A table in good standing: ids are distinct, no amount is negative and
    no player has bet more than the current bet. *)
Definition tableSane (s : GameState) : Prop :=
  distinctIds s ∧ 0 ≤ currentBet s ∧ 0 ≤ pot s ∧
  Forall (λ p, 0 ≤ chips p ∧ 0 ≤ bet p ∧ bet p ≤ currentBet s) (players s).

(** The state [nextPlayer] returns when it resolves seat [k]. *)
Definition turnAt (k : nat) (s : GameState) : GameState :=
  withCurrentPlayerIndex (Idx k) (withPlayers (markTurn k (players s)) s).

(** The state a handler passes to [nextPlayer] once it has accepted move [m]
    of the player [p] at position [seat]. *)
Definition acceptedMove (m : Move) (seat : nat) (p : Player) (s : GameState) : GameState :=
  match m with
  | Fold => withPlayers (<[seat := folded p]> (players s)) s
  | Check => s
  | Call =>
      let allIn := bool_decide (chips p ≤ currentBet s - bet p) in
      let amount := if allIn then chips p else currentBet s - bet p in
      withPot (pot s + amount)
        (withPlayers (<[seat := committed (chips p - amount) (bet p + amount) allIn p]>
                        (players s)) s)
  | Raise betAmount =>
      let amount := betAmount - bet p in
      withCurrentBet betAmount
        (withPot (pot s + amount)
           (withPlayers (<[seat := committed (chips p - amount) betAmount
                                    (bool_decide (chips p - amount = 0)) p]>
                           (players s)) s))
  end.

(** The guards of the handler of move [m], for the player [p]. *)
Definition moveAllowed (m : Move) (p : Player) (s : GameState) : Prop :=
  match m with
  | Fold | Call => True
  | Check => ¬ (0 < currentBet s ∧ bet p ≠ currentBet s)
  | Raise betAmount => betAmount - bet p ≤ chips p ∧ currentBet s * 2 ≤ betAmount
  end.

#[global] Instance moveAllowed_dec m p s : Decision (moveAllowed m p s).
Proof. destruct m; simpl; apply _. Defined.

(** The number of cards [dealCommunityCards] sets out to deal at a stage. *)
Definition cardsToAdd (st : GameStage) : nat :=
  match st with
  | flop => 3%nat
  | turn | river => 1%nat
  | _ => 0%nat
  end.

(** The operations of one hand as a caller strings them together: a betting
    action, the deal of the hole cards, the advance to the next stage. *)
Inductive TableOp := Bet (a : Action) | DealHands | Advance.

Definition runOp (op : TableOp) (s : GameState) : Run GameState :=
  match op with
  | Bet a => settle s (perform a s)
  | DealHands => Returns (dealCards s)
  | Advance => settle s (handleNextStage s)
  end.

Fixpoint runOps (ops : list TableOp) (s : GameState) : Run GameState :=
  match ops with
  | [] => Returns s
  | op :: rest =>
      match runOp op s with
      | Returns s1 => runOps rest s1
      | Throws => Throws
      | Diverges => Diverges
      end
  end.

(** [dealerIndex] is the position of a seat. *)
Definition dealerValid (s : GameState) : Prop :=
  ∃ d, dealerIndex s = Idx d ∧ (d < length (players s))%nat.

(** What holds throughout a hand played on a table of [count] players
    holding [total] chips in all. *)
Definition handInvariant (count : nat) (total : Z) (s : GameState) : Prop :=
  length (players s) = count ∧ distinctIds s ∧ cursorValid s ∧ dealerValid s ∧
  cardCount s = 52%nat ∧ chipsPot s = total.

(** ** Example tables and random sources *)

Definition halfU : Unit01 := mkUnit01 1 2 (le_n 2).

(** A seat with empty hand and no flags set but the ones given. *)
Definition seat (i : nat) (stack committed : Z) (active toAct : bool) : Player :=
  {| id := "player-" +:+ pretty i;
     name := "Player " +:+ pretty (i + 1)%nat;
     chips := stack;
     cards := [];
     isActive := active;
     isDealer := bool_decide (i = 0%nat);
     isSmallBlind := false;
     isBigBlind := false;
     isTurn := toAct;
     isAllIn := false;
     bet := committed;
     avatarUrl := None |}.

(** A table over the unshuffled deck, blinds 5 and 10, dealer at seat 0. *)
Definition table (ps : list Player) (thePot theBet : Z) (st : GameStage) (cursor : nat)
  : GameState :=
  {| players := ps;
     communityCards := [];
     deck := orderedDeck;
     pot := thePot;
     currentBet := theBet;
     stage := st;
     currentPlayerIndex := Idx cursor;
     dealerIndex := Idx 0;
     smallBlindAmount := 5;
     bigBlindAmount := 10;
     activePlayerIndex := None |}.

(** Before the deal: player 0 is in, player 1 sits out. *)
Definition seat0 : Player := seat 0 1000 0 true true.
Definition table0 : GameState :=
  table [seat0; seat 1 1000 0 false false] 0 0 preflop 0.

(** Stage flop, no bet open, player 0 to act. *)
Definition tableFlop : GameState :=
  table [seat0; seat 1 1000 0 true false] 0 0 flop 0.

(** Both players have folded and [currentPlayerIndex] is past the last
    seat. *)
Definition strandedTable : GameState :=
  table [seat 0 990 10 false false; seat 1 995 5 false false] 15 10 preflop 2.

(** Three players preflop with the blinds posted: player 0 is to act and
    has put in nothing yet. *)
Definition tableBet10 : GameState :=
  table [seat0; seat 1 995 5 true false; seat 2 990 10 true false] 15 10 preflop 0.

(** Player 0 has no chips and no bet but is active and not flagged all-in;
    player 1 has raised to 20. *)
Definition seatBroke : Player := seat 0 0 0 true false.
Definition tableBroke : GameState :=
  table [seatBroke; seat 1 1980 20 true true] 20 20 preflop 1.

(** ** Lemmas on the deck *)

Lemma floorRandom_lt u n : (0 < n)%nat → (floorRandom u n < n)%nat.
Proof.
  intros Hn. unfold floorRandom.
  pose proof (num_lt_den u) as Hu.
  apply Nat.Div0.div_lt_upper_bound. nia.
Qed.

Lemma swap_length i j a : length (swap i j a) = length a.
Proof.
  unfold swap. destruct (a !! j), (a !! i); rewrite ?length_insert; done.
Qed.

Lemma swap_perm i j a : swap i j a ≡ₚ a.
Proof.
  unfold swap.
  destruct (a !! j) as [aj|] eqn:Hj; [|done].
  destruct (a !! i) as [ai|] eqn:Hi; [|done].
  destruct (decide (i = j)) as [->|Hne].
  - assert (ai = aj) as -> by congruence.
    rewrite list_insert_insert_eq. by rewrite list_insert_id.
  - apply Permutation_inj.
    split; [by rewrite !length_insert|].
    exists (λ n, if decide (n = i) then j else if decide (n = j) then i else n).
    split.
    + intros x y Hxy. repeat case_decide; congruence.
    + intros n. pose proof (lookup_lt_Some _ _ _ Hi). pose proof (lookup_lt_Some _ _ _ Hj).
      repeat case_decide; subst.
      * rewrite list_lookup_insert_ne by done.
        rewrite list_lookup_insert_eq by done. congruence.
      * rewrite list_lookup_insert_eq; [congruence|by rewrite length_insert].
      * rewrite !list_lookup_insert_ne by done. done.
Qed.

Lemma fisherYates_perm rnd i : ∀ k a, fisherYates rnd k i a ≡ₚ a.
Proof.
  induction i as [|i IH]; intros k a; simpl; [done|].
  rewrite IH. apply swap_perm.
Qed.

(** The indices the loop swaps are positions of the array, so [swap] never
    meets a missing element. *)
Lemma swap_in_range i j (a : list Card) :
  (i < length a)%nat → (j ≤ i)%nat →
  ∃ ai aj, a !! i = Some ai ∧ a !! j = Some aj ∧ swap i j a = <[j := ai]> (<[i := aj]> a).
Proof.
  intros Hi Hj.
  destruct (lookup_lt_is_Some_2 a i Hi) as [ai Hai].
  destruct (lookup_lt_is_Some_2 a j ltac:(lia)) as [aj Haj].
  exists ai, aj. unfold swap. by rewrite Hai, Haj.
Qed.

(** Each iteration of the loop of [shuffleDeck] swaps two positions of the
    array: with [i] below the length, so is the random index. *)
Lemma fisherYates_step_in_range (rnd : RandomSource) (k i : nat) (a : list Card) :
  (S i < length a)%nat →
  let j := floorRandom (rnd k) (S i + 1) in
  (j ≤ S i)%nat ∧
  (S i < length (swap (S i) j a))%nat ∧
  ∃ ai aj, a !! S i = Some ai ∧ a !! j = Some aj ∧
           swap (S i) j a = <[j := ai]> (<[S i := aj]> a).
Proof.
  intros Hi j.
  assert (j ≤ S i)%nat as Hj.
  { pose proof (floorRandom_lt (rnd k) (S i + 1) ltac:(lia)). unfold j. lia. }
  split; [done|]. split; [by rewrite swap_length|]. by apply swap_in_range.
Qed.

Lemma shuffleDeck_perm rnd deck : shuffleDeck rnd deck ≡ₚ deck.
Proof. apply fisherYates_perm. Qed.

Lemma orderedDeck_faces : NoDup (fmap face orderedDeck).
Proof. apply (bool_decide_unpack _). vm_compute. exact I. Qed.

Lemma fisherYatesAt_alter rnd l i :
  ∀ k (σ : Refs.store), Refs.fisherYatesAt rnd k i l σ = alter (fisherYates rnd k i) l σ.
Proof.
  induction i as [|i IH]; intros k σ; simpl.
  - symmetry. by apply alter_id.
  - rewrite IH. unfold Refs.swapAt. by rewrite alter_alter_eq.
Qed.

Lemma createDeck_length rnd : length (createDeck rnd) = 52%nat.
Proof.
  unfold createDeck.
  rewrite (Permutation_length (shuffleDeck_perm rnd orderedDeck)).
  vm_compute. reflexivity.
Qed.

Lemma createDeck_faces rnd : NoDup (fmap face (createDeck rnd)).
Proof.
  unfold createDeck.
  pose proof (fmap_Permutation face _ _ (shuffleDeck_perm rnd orderedDeck)) as Hp.
  exact (proj2 (NoDup_Permutation_proper _ _ Hp) orderedDeck_faces).
Qed.

(** C9. Every deck [createDeck] returns has exactly 52 cards with pairwise
    distinct (suit, rank) pairs; and for every input array and every random
    source, [shuffleDeck] returns a reference that was not in use before (a
    new array) holding a permutation of the input's cards, and leaves the
    input array, and every other array, as it was. *)
Theorem createDeck_shuffleDeck_spec (rnd : RandomSource) (σ : Refs.store)
    (deck : Refs.loc) (input : list Card) :
  σ !! deck = Some input →
  (length (createDeck rnd) = 52%nat ∧ NoDup (fmap face (createDeck rnd))) ∧
  ∃ out σ',
    Refs.shuffleDeck rnd deck σ = (out, σ') ∧
    σ !! out = None ∧
    σ' !! out = Some (shuffleDeck rnd input) ∧
    shuffleDeck rnd input ≡ₚ input ∧
    σ' !! deck = Some input ∧
    ∀ l, l ≠ out → σ' !! l = σ !! l.
Proof.
  intros Hdeck. split.
  - split; [apply createDeck_length | apply createDeck_faces].
  - unfold Refs.shuffleDeck, Refs.spread.
    set (out := fresh (dom σ)).
    assert (σ !! out = None) as Hfresh.
    { apply not_elem_of_dom. apply is_fresh. }
    assert (out ≠ deck) as Hne by congruence.
    eexists out, _. split; [reflexivity|].
    rewrite Hdeck. simpl. rewrite lookup_insert_eq. simpl.
    rewrite fisherYatesAt_alter.
    split; [done|]. split.
    { rewrite lookup_alter, decide_True by done. by rewrite lookup_insert_eq. }
    split; [apply shuffleDeck_perm|]. split.
    + rewrite lookup_alter, decide_False by done. by rewrite lookup_insert_ne.
    + intros l Hl. rewrite lookup_alter, decide_False by done. by rewrite lookup_insert_ne.
Qed.

Lemma createDeck_shuffleDeck_spec_witness :
  let σ : Refs.store := {[ 1%positive := orderedDeck ]} in
  σ !! 1%positive = Some orderedDeck ∧
  ∃ out σ', Refs.shuffleDeck (λ _, halfU) 1%positive σ = (out, σ') ∧
            σ' !! 1%positive = Some orderedDeck.
Proof.
  pose proof (createDeck_shuffleDeck_spec (λ _, halfU) {[ 1%positive := orderedDeck ]}
                1%positive orderedDeck (lookup_singleton_eq _ _)) as [_ (out & σ' & H & _ & _ & _ & Hin & _)].
  split; [apply lookup_singleton_eq|]. exists out, σ'. by split.
Defined.

(** ** Lemmas on dealing *)

Lemma pop_nil : pop [] = (None, []).
Proof. reflexivity. Qed.

Lemma pop_snoc d c : pop (d ++ [c]) = (Some c, d).
Proof. unfold pop. by rewrite last_snoc, removelast_last. Qed.

Lemma faceUp_withFaceUp b c : faceUp (withFaceUp b c) = b.
Proof. reflexivity. Qed.

Lemma face_withFaceUp b c : face (withFaceUp b c) = face c.
Proof. reflexivity. Qed.

Lemma withCards_cards p : withCards (cards p) p = p.
Proof. by destruct p. Qed.

Lemma dealtTo_mono dealt dealt' p p' :
  dealt ⊆ dealt' → dealtTo dealt p p' → dealtTo dealt' p p'.
Proof.
  intros Hsub [Hp Hc]. split; [done|].
  destruct (isActive p); [|done].
  destruct Hc as [?|(c & Hin & ?)]; [by left|right]. exists c. split; [by apply Hsub|done].
Qed.

Lemma dealRound_inactive p rest d :
  isActive p = false →
  dealRound (p :: rest) d = (p :: (dealRound rest d).1, (dealRound rest d).2).
Proof. intros H. simpl. rewrite H. by destruct (dealRound rest d). Qed.

Lemma dealRound_active_empty p rest :
  isActive p = true →
  dealRound (p :: rest) [] = (p :: (dealRound rest []).1, (dealRound rest []).2).
Proof. intros H. simpl. rewrite H. by destruct (dealRound rest []). Qed.

Lemma dealRound_active p rest d c :
  isActive p = true →
  dealRound (p :: rest) (d ++ [c]) =
    (withCards (cards p ++ [withFaceUp false c]) p :: (dealRound rest d).1,
     (dealRound rest d).2).
Proof.
  intros H. cbn [dealRound]. rewrite H, pop_snoc. by destruct (dealRound rest d).
Qed.

Lemma activeCount_cons p rest :
  activeCount (p :: rest) = ((if isActive p then 1 else 0) + activeCount rest)%nat.
Proof. unfold activeCount. simpl. by destruct (isActive p). Qed.

Lemma dealRound_spec ps : ∀ d,
  ∃ dealt,
    d = (dealRound ps d).2 ++ dealt ∧
    Forall2 (dealtTo dealt) ps (dealRound ps d).1 ∧
    concat (cards <$> (dealRound ps d).1)
      ≡ₚ concat (cards <$> ps) ++ (withFaceUp false <$> dealt) ∧
    ((activeCount ps ≤ length d)%nat →
       length dealt = activeCount ps ∧
       Forall2 (λ p p', isActive p = true →
                  ∃ c, c ∈ dealt ∧ cards p' = cards p ++ [withFaceUp false c])
               ps (dealRound ps d).1).
Proof.
  induction ps as [|p rest IH]; intros d.
  - exists []. simpl. rewrite app_nil_r. repeat split; constructor.
  - rewrite activeCount_cons. destruct (isActive p) eqn:Hact.
    + destruct d as [|c d _] using rev_ind.
      * rewrite dealRound_active_empty by done.
        destruct (IH []) as (dealt & Hd & Hf & Hperm & _).
        exists dealt. cbn [fst snd]. split; [done|]. split.
        { constructor; [|done]. split; [by rewrite withCards_cards|]. rewrite Hact. by left. }
        split; [by rewrite !fmap_cons, !concat_cons, Hperm, (assoc_L (++))|].
        simpl. lia.
      * rewrite dealRound_active by done.
        destruct (IH d) as (dealt & Hd & Hf & Hperm & Hfull).
        exists (dealt ++ [c]). cbn [fst snd].
        split; [by rewrite Hd at 1; rewrite (assoc_L (++))|]. split.
        { constructor.
          - split; [done|]. rewrite Hact. right. exists c. split; [in_cards|done].
          - eapply Forall2_impl; [exact Hf|]. intros ???. eapply dealtTo_mono; [|done]. intros ?. in_cards. }
        split.
        { rewrite !fmap_cons, !concat_cons, Hperm, fmap_app. cbn [cards withCards fmap list_fmap].
          rewrite <- !(assoc_L (++)). f_equiv.
          rewrite (assoc_L (++) _ _ [_]). by rewrite (comm (++) [_]). }
        rewrite !length_app. simpl. intros Hlen.
        destruct Hfull as [Hl Hf2]; [lia|].
        split; [lia|].
        constructor.
        { intros _. exists c. split; [in_cards|done]. }
        eapply Forall2_impl; [exact Hf2|]. simpl. intros x y Hxy Hx.
        destruct (Hxy Hx) as (c' & ? & ?). exists c'. split; [in_cards|done].
    + rewrite dealRound_inactive by done.
      destruct (IH d) as (dealt & Hd & Hf & Hperm & Hfull).
      exists dealt. cbn [fst snd]. split; [done|]. split.
      { constructor; [|done]. split; [by rewrite withCards_cards|]. by rewrite Hact. }
      split; [by rewrite !fmap_cons, !concat_cons, Hperm, (assoc_L (++))|].
      intros Hlen. destruct (Hfull Hlen) as [Hl Hf2]. split; [done|].
      constructor; [congruence|done].
Qed.

Lemma Forall2_compose {A B C} (P : A → B → Prop) (Q : B → C → Prop) (R : A → C → Prop)
    (l : list A) (k : list B) (m : list C) :
  (∀ x y z, P x y → Q y z → R x z) →
  Forall2 P l k → Forall2 Q k m → Forall2 R l m.
Proof.
  intros HR HP. revert m. induction HP; intros m HQ; inv HQ; constructor; eauto.
Qed.

Lemma Forall2_both {A B} (P Q : A → B → Prop) (l : list A) (k : list B) :
  Forall2 P l k → Forall2 Q l k → Forall2 (λ x y, P x y ∧ Q x y) l k.
Proof. induction 1; intros HQ; inv HQ; constructor; auto. Qed.

Lemma Forall2_with_l {A B} (P : A → Prop) (Q : A → B → Prop) (l : list A) (k : list B) :
  Forall P l → Forall2 Q l k → Forall2 (λ x y, P x ∧ Q x y) l k.
Proof. intros HP HQ. induction HQ; inv HP; constructor; auto. Qed.

Lemma dealtTo_isActive dealt p p' : dealtTo dealt p p' → isActive p' = isActive p.
Proof. intros [-> _]. reflexivity. Qed.

Lemma dealtTo_chips dealt p p' : dealtTo dealt p p' → chips p' = chips p.
Proof. intros [-> _]. reflexivity. Qed.

Lemma dealt_activeCount dealt ps ps' :
  Forall2 (dealtTo dealt) ps ps' → activeCount ps' = activeCount ps.
Proof.
  induction 1 as [|p p' ps ps' Hp _ IH]; [done|].
  by rewrite !activeCount_cons, IH, (dealtTo_isActive _ _ _ Hp).
Qed.

Lemma dealt_chips dealt ps ps' :
  Forall2 (dealtTo dealt) ps ps' → chips <$> ps' = chips <$> ps.
Proof.
  induction 1 as [|p p' ps ps' Hp _ IH]; [done|].
  by rewrite !fmap_cons, IH, (dealtTo_chips _ _ _ Hp).
Qed.

Lemma dealCards_rounds s :
  dealCards s =
    let r1 := dealRound (players s) (deck s) in
    let r2 := dealRound r1.1 r1.2 in
    withDeck r2.2 (withPlayers r2.1 s).
Proof.
  unfold dealCards. destruct (dealRound (players s) (deck s)) as [ps1 d1]. simpl.
  by destruct (dealRound ps1 d1).
Qed.

(** [dealCards] in general: whatever the deck holds, the cards that leave it
    are the cards that reach the hands, and nothing but hands and deck
    changes. *)
Lemma dealCards_conserves s :
  ∃ removed,
    deck s = deck (dealCards s) ++ removed ∧
    dealCards s = withDeck (deck (dealCards s)) (withPlayers (players (dealCards s)) s) ∧
    Forall2 (λ p p', p' = withCards (cards p') p) (players s) (players (dealCards s)) ∧
    concat (cards <$> players (dealCards s))
      ≡ₚ concat (cards <$> players s) ++ (withFaceUp false <$> removed).
Proof.
  rewrite dealCards_rounds. cbn zeta.
  destruct (dealRound_spec (players s) (deck s)) as (dealt1 & Hd1 & Hf1 & Hp1 & _).
  set (r1 := dealRound (players s) (deck s)) in *.
  destruct (dealRound_spec r1.1 r1.2) as (dealt2 & Hd2 & Hf2 & Hp2 & _).
  set (r2 := dealRound r1.1 r1.2) in *.
  exists (dealt2 ++ dealt1). cbn [deck players withDeck withPlayers].
  split; [by rewrite (assoc_L (++)), <- Hd2|].
  split; [done|]. split.
  - eapply Forall2_compose; [|exact Hf1|exact Hf2].
    intros x y z [Hy _] [Hz _]. rewrite Hz, Hy. reflexivity.
  - rewrite Hp2, Hp1, fmap_app, <- !(assoc_L (++)). f_equiv. apply (comm (++)).
Qed.

(** C8. In a state with N active players, each with an empty hand, and at
    least 2N cards in the deck, [dealCards] removes exactly 2N cards from the
    top of the deck, leaves every active player with exactly two cards, both
    face down and both taken from the removed cards, and leaves every
    inactive player as it was; nothing but hands and deck changes. *)
Theorem dealCards_spec (s : GameState) (N : nat) :
  activeCount (players s) = N →
  Forall (λ p, isActive p = true → cards p = []) (players s) →
  (2 * N ≤ length (deck s))%nat →
  ∃ removed,
    length removed = (2 * N)%nat ∧
    deck s = deck (dealCards s) ++ removed ∧
    dealCards s = withDeck (deck (dealCards s)) (withPlayers (players (dealCards s)) s) ∧
    Forall2 (λ p p',
               if isActive p
               then ∃ c1 c2, c1 ∈ removed ∧ c2 ∈ removed ∧
                      p' = withCards [withFaceUp false c1; withFaceUp false c2] p ∧
                      length (cards p') = 2%nat ∧
                      Forall (λ c, faceUp c = false) (cards p')
               else p' = p)
            (players s) (players (dealCards s)).
Proof.
  intros HN He Hdeck.
  rewrite dealCards_rounds. cbn zeta.
  destruct (dealRound_spec (players s) (deck s)) as (dealt1 & Hd1 & Hf1 & _ & Hfull1).
  destruct Hfull1 as [Hl1 Hg1]; [lia|].
  set (r1 := dealRound (players s) (deck s)) in *.
  assert (activeCount r1.1 = N) as HN1 by (by rewrite (dealt_activeCount _ _ _ Hf1)).
  assert (length (deck s) = length r1.2 + N)%nat as Hlen1.
  { rewrite Hd1 at 1. rewrite length_app. lia. }
  destruct (dealRound_spec r1.1 r1.2) as (dealt2 & Hd2 & Hf2 & _ & Hfull2).
  destruct Hfull2 as [Hl2 Hg2]; [lia|].
  set (r2 := dealRound r1.1 r1.2) in *.
  exists (dealt2 ++ dealt1). cbn [deck players withDeck withPlayers].
  split; [rewrite length_app; lia|].
  split; [by rewrite (assoc_L (++)), <- Hd2|].
  split; [done|].
  pose proof (Forall2_with_l _ _ _ _ He (Forall2_both _ _ _ _ Hf1 Hg1)) as H1.
  pose proof (Forall2_both _ _ _ _ Hf2 Hg2) as H2.
  eapply Forall2_compose; [|exact H1|exact H2].
  intros p p1 p2 (Hstart & [Hp1 Hc1] & Hgot1) ([Hp2 Hc2] & Hgot2). simpl in *.
  assert (isActive p1 = isActive p) as Ha1 by (by rewrite Hp1).
  rewrite Ha1 in *.
  destruct (isActive p) eqn:Hact.
  - destruct (Hgot1 eq_refl) as (c1 & Hin1 & Hcards1).
    destruct (Hgot2 eq_refl) as (c2 & Hin2 & Hcards2).
    rewrite (Hstart eq_refl) in Hcards1. simpl in Hcards1.
    rewrite Hcards1 in Hcards2. simpl in Hcards2.
    exists c1, c2. rewrite Hcards2.
    split; [in_cards|]. split; [in_cards|].
    split; [rewrite Hp2, Hp1, Hcards2; reflexivity|].
    split; [done|]. repeat constructor.
  - rewrite Hp2, Hc2, Hp1, Hc1. by destruct p.
Qed.

Lemma dealCards_spec_witness :
  ∃ removed, length removed = 2%nat ∧ deck table0 = deck (dealCards table0) ++ removed.
Proof.
  destruct (dealCards_spec table0 1) as (removed & Hl & Hd & _).
  - reflexivity.
  - repeat constructor; simpl; congruence.
  - vm_compute. lia.
  - by exists removed.
Defined.

Lemma dealCommunity_snoc n d c cc :
  dealCommunity (S n) (d ++ [c]) cc = dealCommunity n d (cc ++ [withFaceUp true c]).
Proof. cbn [dealCommunity]. by rewrite pop_snoc. Qed.

Lemma list_top3 {A} (d : list A) :
  (3 ≤ length d)%nat → ∃ rest c1 c2 c3, d = rest ++ [c3; c2; c1].
Proof.
  intros H.
  destruct d as [|c1 d _] using rev_ind; [simpl in H; lia|].
  destruct d as [|c2 d _] using rev_ind; [simpl in H; lia|].
  destruct d as [|c3 d _] using rev_ind; [simpl in H; lia|].
  exists d, c1, c2, c3. by rewrite <- !(assoc_L (++)).
Qed.

(** C6. With at least three cards in the deck, [dealCommunityCards] at stage
    flop moves the three top cards of the deck, turned face up, to the end of
    [communityCards] (top card first); at stage turn or river it moves the one
    top card; at any other stage it returns the state it was given. *)
Theorem dealCommunityCards_spec (s : GameState) :
  (3 ≤ length (deck s))%nat →
  (stage s = flop →
     ∃ rest c1 c2 c3,
       deck s = rest ++ [c3; c2; c1] ∧
       let dealt := withFaceUp true <$> [c1; c2; c3] in
       Forall (λ c, faceUp c = true) dealt ∧
       dealCommunityCards s =
         withDeck rest (withCommunityCards (communityCards s ++ dealt) s)) ∧
  (stage s = turn ∨ stage s = river →
     ∃ rest c,
       deck s = rest ++ [c] ∧
       let dealt := withFaceUp true <$> [c] in
       Forall (λ c, faceUp c = true) dealt ∧
       dealCommunityCards s =
         withDeck rest (withCommunityCards (communityCards s ++ dealt) s)) ∧
  (stage s = preflop ∨ stage s = showdown ∨ stage s = ended →
     dealCommunityCards s = s).
Proof.
  intros Hlen.
  destruct (list_top3 _ Hlen) as (rest & c1 & c2 & c3 & Hd).
  split; [|split].
  - intros Hst. exists rest, c1, c2, c3. split; [done|]. cbn zeta.
    split; [repeat constructor|].
    unfold dealCommunityCards. rewrite Hst, Hd.
    replace (rest ++ [c3; c2; c1]) with (((rest ++ [c3]) ++ [c2]) ++ [c1])
      by (by rewrite <- !(assoc_L (++))).
    rewrite !dealCommunity_snoc. cbn [dealCommunity].
    by rewrite <- !(assoc_L (++)).
  - intros Hst. exists (rest ++ [c3; c2]), c1.
    split; [by rewrite Hd, <- (assoc_L (++))|]. cbn zeta.
    split; [repeat constructor|].
    unfold dealCommunityCards. rewrite Hd.
    replace (rest ++ [c3; c2; c1]) with ((rest ++ [c3; c2]) ++ [c1])
      by (by rewrite <- !(assoc_L (++))).
    destruct Hst as [-> | ->]; by rewrite dealCommunity_snoc.
  - unfold dealCommunityCards. by intros [-> | [-> | ->]].
Qed.

Lemma dealCommunityCards_spec_witness :
  (3 ≤ length (deck tableFlop))%nat ∧
  length (communityCards (dealCommunityCards tableFlop)) = 3%nat ∧
  length (deck (dealCommunityCards tableFlop)) = 49%nat.
Proof.
  assert (3 ≤ length (deck tableFlop))%nat as H by (vm_compute; lia).
  split; [exact H|].
  destruct (dealCommunityCards_spec tableFlop H) as (Hflop & _ & _).
  destruct (Hflop eq_refl) as (rest & c1 & c2 & c3 & Hd & _ & ->).
  split; [reflexivity|].
  cbn [deck withDeck]. apply (f_equal length) in Hd. rewrite length_app in Hd.
  change (length (deck tableFlop)) with 52%nat in Hd. cbn [length] in Hd. lia.
Defined.

Lemma cardCount_withCards_nil s :
  Forall (λ p, cards p = []) (players s) → communityCards s = [] →
  cardCount s = length (deck s).
Proof.
  intros Hf Hc. unfold cardCount. rewrite Hc. simpl.
  assert (concat (cards <$> players s) = []) as ->; [|simpl; lia].
  induction Hf as [|p ps Hp _ IH]; [done|]. by rewrite fmap_cons, concat_cons, Hp, IH.
Qed.

Lemma dealCards_cardCount s : cardCount (dealCards s) = cardCount s.
Proof.
  destruct (dealCards_conserves s) as (removed & Hd & Hs & _ & Hperm).
  unfold cardCount. rewrite Hperm, length_app, length_fmap.
  assert (communityCards (dealCards s) = communityCards s) as -> by (by rewrite Hs).
  assert (length (deck s) = length (deck (dealCards s)) + length removed)%nat as ->
    by (by rewrite Hd at 1; rewrite length_app).
  lia.
Qed.

Lemma dealRound_length ps : ∀ d,
  length (dealRound ps d).2 = (length d - activeCount ps)%nat.
Proof.
  induction ps as [|p rest IH]; intros d.
  - unfold activeCount. simpl. lia.
  - rewrite activeCount_cons. destruct (isActive p) eqn:Hact.
    + destruct d as [|c d _] using rev_ind.
      * rewrite dealRound_active_empty by done. cbn [snd]. rewrite IH. simpl. lia.
      * rewrite dealRound_active by done. cbn [snd]. rewrite IH, length_app. simpl. lia.
    + rewrite dealRound_inactive by done. cbn [snd]. rewrite IH. lia.
Qed.

(** How many cards [dealCards] leaves in the deck. *)
Lemma dealCards_deck_length s :
  length (deck (dealCards s)) = (length (deck s) - 2 * activeCount (players s))%nat.
Proof.
  rewrite dealCards_rounds. cbn zeta. cbn [deck withDeck].
  destruct (dealRound_spec (players s) (deck s)) as (? & _ & Hf1 & _).
  rewrite !dealRound_length, (dealt_activeCount _ _ _ Hf1). lia.
Qed.

Lemma activeCount_all ps :
  Forall (λ p, isActive p = true) ps → activeCount ps = length ps.
Proof.
  induction 1 as [|p l Hp _ IH]; [done|].
  rewrite activeCount_cons, Hp, IH. simpl. lia.
Qed.

(** C10. Starting a new hand leaves every player's [chips] as it was while
    [pot] becomes 0 and [currentBet] becomes [bigBlindAmount]; the deck is the
    old deck less the cards popped into the (emptied) hands, two for each
    player as far as the old deck reaches, so afterwards
    [deck.length + hole cards + communityCards.length] equals the old
    [deck.length]: less than 52 whenever the old deck held fewer than 52
    cards, as on a new hand started right after the first deal, where the
    48 cards left are 44 in the deck and 4 in the two new hands. *)
Theorem handleNewGame_keeps_chips_and_deck :
  (∀ s : GameState,
     let s' := handleNewGame s in
     chips <$> players s' = chips <$> players s ∧
     pot s' = 0 ∧
     currentBet s' = bigBlindAmount s ∧
     communityCards s' = [] ∧
     (∃ popped, deck s = deck s' ++ popped ∧
                length popped = Nat.min (2 * length (players s)) (length (deck s)) ∧
                concat (cards <$> players s') ≡ₚ withFaceUp false <$> popped) ∧
     cardCount s' = length (deck s)) ∧
  (let s := dealCards (initializeGame (λ _, halfU) 2 1000 5 10) in
   cardCount s = 52%nat ∧ cardCount (handleNewGame s) = 48%nat ∧
   length (deck (handleNewGame s)) = 44%nat ∧
   length (concat (cards <$> players (handleNewGame s))) = 4%nat).
Proof.
  split; [|by vm_compute].
  intros s. cbn zeta. unfold handleNewGame.
  set (n := length (players s)).
  set (seat := λ k, idxMod (idxAdd (dealerIndex s) k) n).
  set (ps := imap _ (players s)).
  set (s0 := mkGameState _ _ _ _ _ _ _ _ _ _ _).
  assert (Forall (λ p, cards p = []) ps) as Hemp.
  { apply Forall_lookup. intros i p Hi.
    unfold ps in Hi. rewrite list_lookup_imap in Hi.
    destruct (players s !! i); simplify_eq/=. done. }
  assert (chips <$> ps = chips <$> players s) as Hch.
  { unfold ps. rewrite fmap_imap. rewrite <- (imap_const chips). by apply imap_ext. }
  destruct (dealCards_conserves s0) as (popped & Hd & Hs & Hf & Hperm).
  assert (concat (cards <$> ps) = []) as Hnil.
  { clear -Hemp. induction Hemp as [|p l Hp _ IH]; [done|].
    by rewrite fmap_cons, concat_cons, Hp, IH. }
  split.
  { rewrite <- Hch. change ps with (players s0).
    clear -Hf. induction Hf as [|p p' l l' Hp _ IH]; [done|].
    rewrite !fmap_cons, IH. f_equal. by rewrite Hp. }
  split; [by rewrite Hs|]. split; [by rewrite Hs|]. split; [by rewrite Hs|]. split.
  - exists popped. change (deck s0) with (deck s) in Hd. split; [exact Hd|]. split.
    + assert (activeCount ps = length (players s)) as Hact.
      { rewrite activeCount_all; [apply length_imap|].
        apply Forall_lookup. intros i p Hi.
        unfold ps in Hi. rewrite list_lookup_imap in Hi.
        destruct (players s !! i); simplify_eq/=. done. }
      pose proof (dealCards_deck_length s0) as Hlen.
      change (players s0) with ps in Hlen. change (deck s0) with (deck s) in Hlen.
      rewrite Hact in Hlen.
      pose proof (f_equal length Hd) as Hsum. rewrite length_app in Hsum. lia.
    + rewrite Hperm. change (players s0) with ps. by rewrite Hnil.
  - rewrite dealCards_cardCount. by rewrite cardCount_withCards_nil.
Qed.

(** ** Lemmas on nextPlayer *)

Section Cursor.
Local Open Scope nat_scope.

Variable ps : list Player.
Variable cur : Index.

Lemma seekActive_unfold fuel n :
  seekActive fuel ps cur n =
    match ps !! n with
    | None => Throws
    | Some p =>
        if negb (isActive p) && negb (idxIs n cur) then
          match fuel with
          | O => Diverges
          | S fuel' => seekActive fuel' ps cur ((n + 1) mod length ps)
          end
        else Returns n
    end.
Proof. by destruct fuel. Qed.

Lemma stops_or_continues m : m < length ps → {stopsAt ps cur m} + {continuesAt ps cur m}.
Proof.
  intros Hm. destruct (ps !! m) as [p|] eqn:E.
  - destruct (isActive p) eqn:Ha; [left; exists p; auto|].
    destruct (idxIs m cur) eqn:Hc; [left; exists p; auto|].
    right. by exists p.
  - exfalso. apply lookup_ge_None in E. lia.
Qed.

Lemma stops_not_continues m : stopsAt ps cur m → continuesAt ps cur m → False.
Proof.
  intros (p & Hp & Hs) (q & Hq & Ha & Hc). simplify_eq. destruct Hs; congruence.
Qed.

Lemma seekActive_stops_after t : ∀ fuel s0,
  t ≤ fuel →
  (∀ t', t' < t → continuesAt ps cur ((s0 + t') mod length ps)) →
  stopsAt ps cur ((s0 + t) mod length ps) →
  seekActive fuel ps cur (s0 mod length ps) = Returns ((s0 + t) mod length ps).
Proof.
  induction t as [|t IH]; intros fuel s0 Hfuel Hcont Hstop.
  - rewrite Nat.add_0_r in Hstop |- *. rewrite seekActive_unfold.
    destruct Hstop as (p & -> & [-> | ->]); [done|]. by rewrite andb_false_r.
  - rewrite seekActive_unfold.
    destruct (Hcont 0) as (p & Hp & Ha & Hc); [lia|].
    rewrite Nat.add_0_r in Hp, Hc. rewrite Hp, Ha, Hc. simpl.
    destruct fuel as [|fuel]; [lia|].
    rewrite Nat.Div0.add_mod_idemp_l.
    replace (s0 + S t) with ((s0 + 1) + t) in * by lia.
    apply IH; [lia| |done].
    intros t' Ht'. replace (s0 + 1 + t') with (s0 + S t') by lia. apply Hcont. lia.
Qed.

Lemma seekActive_never_stops fuel : ∀ s0,
  (∀ t, continuesAt ps cur ((s0 + t) mod length ps)) →
  seekActive fuel ps cur (s0 mod length ps) = Diverges.
Proof.
  induction fuel as [|fuel IH]; intros s0 Hcont;
    rewrite seekActive_unfold;
    destruct (Hcont 0) as (p & Hp & Ha & Hc);
    rewrite Nat.add_0_r in Hp, Hc; rewrite Hp, Ha, Hc; simpl; [done|].
  rewrite Nat.Div0.add_mod_idemp_l. apply IH.
  intros t. replace (s0 + 1 + t) with (s0 + S t) by lia. apply Hcont.
Qed.

(** The first position at which the loop stops, if there is one among the
    first [n] it visits. *)
Lemma first_stop s0 n :
  0 < length ps →
  (∃ t, t < n ∧ stopsAt ps cur ((s0 + t) mod length ps) ∧
        ∀ t', t' < t → continuesAt ps cur ((s0 + t') mod length ps))
  ∨ (∀ t, t < n → continuesAt ps cur ((s0 + t) mod length ps)).
Proof.
  intros Hlen. induction n as [|n [(t & Ht & Hs & Hc) | Hall]].
  - right. intros t Ht. lia.
  - left. exists t. split; [lia|done].
  - destruct (stops_or_continues ((s0 + n) mod length ps)) as [Hs|Hc].
    { by apply Nat.mod_upper_bound, Nat.neq_0_lt_0. }
    + left. exists n. split; [lia|]. split; [done|]. exact Hall.
    + right. intros t Ht. destruct (decide (t = n)) as [->|]; [done|]. apply Hall. lia.
Qed.

(** The loop is decided after [length ps] iterations: either it stops at
    the first stopping position, reached within [length ps - 1] steps, for
    every bound that allows that many steps; or no bound ever suffices. *)
Lemma seekActive_decided s0 :
  0 < length ps →
  (∃ t, t < length ps ∧ stopsAt ps cur ((s0 + t) mod length ps) ∧
        (∀ t', t' < t → continuesAt ps cur ((s0 + t') mod length ps)) ∧
        ∀ fuel, t ≤ fuel →
          seekActive fuel ps cur (s0 mod length ps) = Returns ((s0 + t) mod length ps))
  ∨ ((∀ m, m < length ps → continuesAt ps cur m) ∧
     ∀ fuel, seekActive fuel ps cur (s0 mod length ps) = Diverges).
Proof.
  intros Hlen.
  destruct (first_stop s0 (length ps) Hlen) as [(t & Ht & Hs & Hc) | Hall].
  - left. exists t. repeat split; try done.
    intros fuel Hf. by apply seekActive_stops_after.
  - right.
    assert (∀ t, continuesAt ps cur ((s0 + t) mod length ps)) as Hever.
    { intros t. rewrite <- Nat.Div0.add_mod_idemp_r. apply Hall.
      by apply Nat.mod_upper_bound, Nat.neq_0_lt_0. }
    split; [|intros fuel; by apply seekActive_never_stops].
    intros m Hm.
    specialize (Hever ((m + length ps - s0 mod length ps) mod length ps)).
    rewrite Nat.Div0.add_mod_idemp_r, <- Nat.Div0.add_mod_idemp_l in Hever.
    pose proof (Nat.mod_upper_bound s0 (length ps) ltac:(lia)).
    replace (s0 mod length ps + (m + length ps - s0 mod length ps)) with (m + 1 * length ps)
      in Hever by lia.
    by rewrite Nat.Div0.mod_add, Nat.mod_small in Hever.
Qed.

End Cursor.

Lemma idxMod_Idx x n : (0 < n)%nat → idxMod (Idx x) n = Idx (x mod n).
Proof. intros H. destruct n; [lia|done]. Qed.

Lemma markTurn_lookup k ps i :
  markTurn k ps !! i = withTurn (bool_decide (i = k)) <$> ps !! i.
Proof. unfold markTurn. by rewrite list_lookup_imap. Qed.

Lemma markTurn_length k ps : length (markTurn k ps) = length ps.
Proof. apply length_imap. Qed.

(** The bound [length players] used by [nextPlayer] loses nothing: a larger
    bound gives the same result, and [Diverges] means that no bound at all
    lets the loop exit. *)
Lemma nextPlayerWithin_stable s :
  (∀ fuel, (length (players s) ≤ fuel)%nat → nextPlayerWithin fuel s = nextPlayer s) ∧
  (nextPlayer s = Diverges → ∀ fuel, nextPlayerWithin fuel s = Diverges).
Proof.
  unfold nextPlayer, nextPlayerWithin.
  destruct (currentPlayerIndex s) as [c|] eqn:Hc; [|done]. cbn [idxAdd].
  destruct (decide (length (players s) = 0)%nat) as [Hn|Hn]; [by rewrite Hn|].
  rewrite idxMod_Idx by lia.
  destruct (seekActive_decided (players s) (Idx c) (c + 1)) as
    [(t & Ht & _ & _ & Hrun) | [_ Hdiv]]; [lia| |].
  - split.
    + intros fuel Hf. by rewrite !Hrun by lia.
    + by rewrite Hrun by lia.
  - split; intros; by rewrite !Hdiv.
Qed.

Lemma nextPlayer_returns s c :
  currentPlayerIndex s = Idx c →
  (c < length (players s))%nat ∨ (∃ i p, players s !! i = Some p ∧ isActive p = true) →
  ∃ k pk,
    nextPlayer s =
      Returns (withCurrentPlayerIndex (Idx k) (withPlayers (markTurn k (players s)) s)) ∧
    players s !! k = Some pk ∧
    (isActive pk = true ∨ Forall (λ p, isActive p = false) (players s)).
Proof.
  intros Hc Hok.
  assert (0 < length (players s))%nat as Hlen.
  { destruct Hok as [?|(i & p & Hi & _)]; [lia|]. apply lookup_lt_Some in Hi. lia. }
  unfold nextPlayer, nextPlayerWithin. rewrite Hc. cbn [idxAdd].
  rewrite idxMod_Idx by done.
  destruct (seekActive_decided (players s) (Idx c) (c + 1)) as
    [(t & Ht & (pk & Hpk & Hstop) & Hcont & Hrun) | [Hall _]]; [lia| |].
  - rewrite Hrun by lia. eexists _, pk. split; [reflexivity|]. split; [done|].
    destruct (isActive pk) eqn:Hact; [by left|right].
    destruct Hstop as [?|Hk]; [done|]. simpl in Hk. apply bool_decide_eq_true in Hk.
    assert (c < length (players s))%nat as Hcl.
    { rewrite <- Hk. apply Nat.mod_upper_bound. lia. }
    assert (t = length (players s) - 1)%nat as Ht1.
    { destruct (decide (c + 1 + t < length (players s))%nat) as [Hs|Hs].
      - rewrite Nat.mod_small in Hk by done. lia.
      - replace (c + 1 + t)%nat with ((c + 1 + t - length (players s)) + 1 * length (players s))%nat
          in Hk by lia.
        rewrite Nat.Div0.mod_add, Nat.mod_small in Hk by lia. lia. }
    apply Forall_lookup. intros m p Hm.
    destruct (decide (m = c)) as [->|Hne].
    { rewrite <- Hk in Hm at 1. congruence. }
    pose proof (lookup_lt_Some _ _ _ Hm) as Hml.
    destruct (Hcont ((m + length (players s) - (c + 1)) mod length (players s))%nat)
      as (q & Hq & Hqa & _).
    { pose proof (Nat.mod_upper_bound (m + length (players s) - (c + 1)) (length (players s))
                    ltac:(lia)) as Hub.
      destruct (decide ((m + length (players s) - (c + 1)) mod length (players s)
                        = length (players s) - 1)%nat) as [He|]; [|lia].
      exfalso. apply Hne.
      destruct (decide (c + 1 ≤ m)%nat).
      - replace (m + length (players s) - (c + 1))%nat
          with ((m - (c + 1)) + 1 * length (players s))%nat in He by lia.
        rewrite Nat.Div0.mod_add, Nat.mod_small in He; lia.
      - rewrite Nat.mod_small in He by lia. lia. }
    rewrite Nat.Div0.add_mod_idemp_r in Hq.
    replace (c + 1 + (m + length (players s) - (c + 1)))%nat
      with (m + 1 * length (players s))%nat in Hq by lia.
    rewrite Nat.Div0.mod_add, Nat.mod_small in Hq by lia. congruence.
  - exfalso. destruct Hok as [Hcl|(i & p & Hi & Ha)].
    + destruct (Hall c Hcl) as (p & _ & _ & Hc'). simpl in Hc'.
      by rewrite bool_decide_eq_false in Hc'.
    + destruct (Hall i (lookup_lt_Some _ _ _ Hi)) as (q & Hq & Hqa & _). congruence.
Qed.

Lemma nextPlayer_usable s :
  cursorUsable s →
  ∃ k pk,
    nextPlayer s =
      Returns (withCurrentPlayerIndex (Idx k) (withPlayers (markTurn k (players s)) s)) ∧
    players s !! k = Some pk ∧
    (isActive pk = true ∨ Forall (λ p, isActive p = false) (players s)).
Proof.
  intros (c & Hc & Hok). apply (nextPlayer_returns s c Hc).
  destruct Hok as [?|Hex]; [by left|right].
  apply Exists_exists in Hex as (p & Hp & Ha).
  apply list_elem_of_lookup in Hp as [i Hi]. eauto.
Qed.

(** C7 (amended). For every game state with a non-empty player list whose
    [currentPlayerIndex] is the position of a seat (or a larger integer while
    at least one player is active), [nextPlayer] returns; the state it
    returns differs from the input only in [currentPlayerIndex], which is the
    resolved index [k], and in the [isTurn] flags, which are true at [k] and
    false at every other position; and the player at [k] is active unless
    every player is inactive. *)
Theorem nextPlayer_spec (s : GameState) :
  players s ≠ [] →
  cursorUsable s →
  ∃ k s',
    nextPlayer s = Returns s' ∧
    s' = withCurrentPlayerIndex (Idx k) (withPlayers (players s') s) ∧
    length (players s') = length (players s) ∧
    (∀ i p, players s !! i = Some p →
            players s' !! i = Some (withTurn (bool_decide (i = k)) p)) ∧
    (∃ pk, players s' !! k = Some pk ∧ isTurn pk = true ∧
           (isActive pk = true ∨ Forall (λ p, isActive p = false) (players s))) ∧
    (∀ i p, players s' !! i = Some p → i ≠ k → isTurn p = false).
Proof.
  intros _ Hok.
  destruct (nextPlayer_usable s Hok) as (k & pk & Hrun & Hpk & Hact).
  eexists k, _. split; [exact Hrun|].
  cbn [players withPlayers withCurrentPlayerIndex].
  split; [done|]. split; [apply markTurn_length|]. split; [|split].
  - intros i p Hi. by rewrite markTurn_lookup, Hi.
  - exists (withTurn true pk). rewrite markTurn_lookup, Hpk. simpl.
    by rewrite bool_decide_eq_true_2.
  - intros i p Hi Hne. rewrite markTurn_lookup in Hi.
    destruct (players s !! i); simplify_eq/=. by apply bool_decide_eq_false_2.
Qed.

Lemma nextPlayer_spec_witness :
  ∃ s', nextPlayer table0 = Returns s' ∧ currentPlayerIndex s' = Idx 0.
Proof.
  destruct (nextPlayer_spec table0) as (k & s' & Hrun & _).
  - discriminate.
  - exists 0%nat. split; [reflexivity|]. left. simpl. lia.
  - exists s'. split; [exact Hrun|].
    vm_compute in Hrun. by injection Hrun as <-.
Defined.

(** C7 as stated fails: with every seat folded and [currentPlayerIndex]
    past the last seat the player list is not empty, yet the loop of
    [nextPlayer] never exits, whatever the number of iterations allowed. *)
Lemma nextPlayer_stranded :
  players strandedTable ≠ [] ∧
  nextPlayer strandedTable = Diverges ∧
  ¬ ∃ fuel s', nextPlayerWithin fuel strandedTable = Returns s'.
Proof.
  split; [discriminate|]. split; [reflexivity|].
  intros (fuel & s' & H).
  rewrite (proj2 (nextPlayerWithin_stable strandedTable) eq_refl fuel) in H.
  discriminate.
Qed.

(** ** Lemmas on the betting handlers *)

Lemma currentSeat_Some s who seat p :
  currentSeat s who = Some (seat, p) →
  truthyId who = true ∧ players s !! seat = Some p ∧ hasId who p = true ∧
  currentPlayer s who = Some p.
Proof.
  unfold currentPlayer, currentSeat. intros H.
  destruct (truthyId who); [|done].
  rewrite H. apply list_find_Some in H as (Hl & Hp & _). done.
Qed.

Lemma currentPlayer_Some s who p :
  currentPlayer s who = Some p → ∃ seat, currentSeat s who = Some (seat, p).
Proof.
  unfold currentPlayer. destruct (currentSeat s who) as [[seat q]|]; [|done].
  intros [= ->]. by exists seat.
Qed.

Lemma isPlayerTurn_true s who :
  isPlayerTurn s who = true ↔ ∃ p, currentPlayer s who = Some p ∧ isTurn p = true.
Proof.
  unfold isPlayerTurn. destruct (currentPlayer s who) as [p|].
  - split; [by exists p|]. by intros (q & [= <-] & Hq).
  - split; [done|]. by intros (q & Hq & _).
Qed.

(** The guard every handler starts with lets exactly the player through whose
    [isTurn] is set. *)
Lemma turn_guard s who p :
  currentPlayer s who = Some p → isTurn p = true →
  negb (isPlayerTurn s who) || negb (truthyId who) = false.
Proof.
  intros Hp Ht. destruct (currentPlayer_Some _ _ _ Hp) as [seat Hs].
  destruct (currentSeat_Some _ _ _ _ Hs) as (-> & _).
  unfold isPlayerTurn. by rewrite Hp, Ht.
Qed.

(** C5. A betting action whose precondition fails changes nothing: the
    handler returns without passing a state to [onGameStateChange], and the
    table stays the input state.  This covers every action by a player whose
    [isTurn] is not set (or who is not at the table), a check while
    [currentBet > 0] and the player's bet differs from it, a raise below twice
    the current bet, and a raise for more than the player's chips. *)
Theorem rejected_actions_are_noops (s : GameState) (who : option string) :
  (isPlayerTurn s who = false →
     ∀ m, perform (who, m) s = Returns None ∧ settle s (perform (who, m) s) = Returns s) ∧
  (∀ p, currentPlayer s who = Some p →
     (0 < currentBet s → bet p ≠ currentBet s →
        handleCheck who s = Returns None ∧ settle s (handleCheck who s) = Returns s) ∧
     (∀ betAmount, betAmount < currentBet s * 2 ∨ chips p < betAmount - bet p →
        handleRaise who betAmount s = Returns None ∧
        settle s (handleRaise who betAmount s) = Returns s)).
Proof.
  assert (∀ r, r = Returns None → r = Returns None ∧ settle s r = Returns s) as Hnoop
    by (by intros r ->).
  split.
  - intros Hturn m. apply Hnoop.
    destruct m; simpl; unfold handleFold, handleCheck, handleCall, handleRaise;
      by rewrite Hturn.
  - intros p Hp. split.
    + intros Hpos Hne. apply Hnoop. unfold handleCheck.
      destruct (negb (isPlayerTurn s who) || negb (truthyId who)); [done|].
      rewrite Hp. simpl.
      by rewrite bool_decide_eq_true_2, bool_decide_eq_false_2.
    + intros betAmount Hbad. apply Hnoop. unfold handleRaise.
      destruct (negb (isPlayerTurn s who) || negb (truthyId who)); [done|].
      rewrite Hp.
      destruct (bool_decide (chips p < betAmount - bet p)) eqn:Hc; [done|].
      apply bool_decide_eq_false in Hc.
      destruct Hbad as [Hmin|?]; [|lia]. by rewrite bool_decide_eq_true_2.
Qed.

Lemma rejected_actions_are_noops_witness :
  handleRaise (Some "player-0") 15 tableBet10 = Returns None ∧
  handleCheck (Some "player-1") tableBet10 = Returns None.
Proof.
  destruct (rejected_actions_are_noops tableBet10 (Some "player-0")) as [_ H0].
  destruct (rejected_actions_are_noops tableBet10 (Some "player-1")) as [H1 _].
  split.
  - destruct (H0 seat0 eq_refl) as [_ Hraise].
    apply (Hraise 15). left. simpl. lia.
  - apply (H1 eq_refl Check).
Defined.

(** C4 (amended). The "all players acted" predicate holds exactly when every
    player that is active and not flagged all-in has [bet = currentBet] or has
    no chips left. *)
Theorem allPlayersActed_spec (s : GameState) :
  allPlayersActed s = true ↔
  ∀ p, p ∈ players s → isActive p = true → isAllIn p = false →
       bet p = currentBet s ∨ chips p = 0.
Proof.
  unfold allPlayersActed. rewrite forallb_forall. split.
  - intros H p Hp Ha Hn.
    assert (In p (List.filter (λ p, isActive p && negb (isAllIn p)) (players s))) as Hin.
    { apply filter_In. split; [by apply list_elem_of_In|]. by rewrite Ha, Hn. }
    apply H, orb_true_iff in Hin as [Hb|Hb]; apply bool_decide_eq_true in Hb; auto.
  - intros H p [Hp [Ha Hn%negb_true_iff]%andb_true_iff]%filter_In.
    apply list_elem_of_In in Hp.
    destruct (H p Hp Ha Hn) as [?|?]; apply orb_true_iff;
      [left|right]; by apply bool_decide_eq_true.
Qed.

Lemma allPlayersActed_spec_witness : allPlayersActed tableBroke = true.
Proof.
  apply (proj2 (allPlayersActed_spec tableBroke)).
  intros p Hp _ _.
  apply elem_of_cons in Hp as [->|Hp]; [by right|].
  apply list_elem_of_singleton in Hp as ->. by left.
Defined.

(** C4 as stated fails: a player without chips who is active and not
    flagged all-in counts as having acted whatever its bet. *)
Lemma allPlayersActed_counts_broke_player :
  allPlayersActed tableBroke = true ∧
  ¬ (∀ p, p ∈ players tableBroke → isActive p = true → isAllIn p = false →
          bet p = currentBet tableBroke).
Proof.
  split; [reflexivity|].
  intros H. specialize (H seatBroke). vm_compute in H.
  discriminate H; [repeat constructor|done..].
Qed.

Lemma seekActive_Returns_lt ps cur fuel : ∀ n k,
  seekActive fuel ps cur n = Returns k → (k < length ps)%nat.
Proof.
  induction fuel as [|fuel IH]; intros n k; rewrite seekActive_unfold;
    destruct (ps !! n) as [p|] eqn:Hp; try done;
    destruct (negb (isActive p) && negb (idxIs n cur)); try done;
    try (intros [= <-]; by eapply lookup_lt_Some).
  apply IH.
Qed.

Lemma nextPlayer_shape s s' :
  nextPlayer s = Returns s' →
  ∃ k, (k < length (players s))%nat ∧
       s' = withCurrentPlayerIndex (Idx k) (withPlayers (markTurn k (players s)) s).
Proof.
  unfold nextPlayer, nextPlayerWithin.
  destruct (idxMod _ _) as [start|]; [|done].
  destruct (seekActive _ _ _ _) as [k| |] eqn:Hk; [|done..].
  intros [= <-]. exists k. split; [|done]. by eapply seekActive_Returns_lt.
Qed.

Lemma fmap_markTurn {B} (f : Player → B) k ps :
  (∀ b p, f (withTurn b p) = f p) → f <$> markTurn k ps = f <$> ps.
Proof.
  intros Hf. unfold markTurn. rewrite fmap_imap, <- (imap_const f).
  apply imap_ext. intros i p _. apply Hf.
Qed.

Lemma nextPlayer_sameStakes s s' :
  nextPlayer s = Returns s' → sameStakes s s' ∧ cursorValid s'.
Proof.
  intros (k & Hk & ->)%nextPlayer_shape.
  unfold sameStakes, chipsPot, totalChips, totalBets, cursorValid.
  cbn [players pot currentPlayerIndex withPlayers withCurrentPlayerIndex].
  rewrite !fmap_markTurn by done. rewrite markTurn_length.
  repeat split. by exists k.
Qed.

Lemma nextPlayer_total s : cursorValid s → ∃ s', nextPlayer s = Returns s'.
Proof.
  intros (c & Hc & Hlt).
  destruct (nextPlayer_returns s c Hc) as (k & pk & Hrun & _); [by left|]. eauto.
Qed.

Lemma sameStakes_trans s s1 s2 : sameStakes s s1 → sameStakes s1 s2 → sameStakes s s2.
Proof. intros (?&?&?) (?&?&?). repeat split; congruence. Qed.

Lemma sameStakes_refl s : sameStakes s s.
Proof. by repeat split. Qed.

(** Replacing the element a list holds at one position. *)
Lemma sumZ_insert {A} (f : A → Z) (l : list A) i x y :
  l !! i = Some x → sumZ (f <$> <[i := y]> l) = sumZ (f <$> l) - f x + f y.
Proof.
  revert i. induction l as [|z l IH]; intros [|i] Hi; simplify_eq/=; [lia|].
  rewrite (IH i Hi). lia.
Qed.

(** With distinct ids, the [map] of a handler rewrites the seat of the
    current player and no other. *)
Lemma update_current_seat (upd : Player → Player) who ps seat p :
  NoDup (id <$> ps) →
  list_find (λ q, hasId who q = true) ps = Some (seat, p) →
  (λ q, if hasId who q then upd q else q) <$> ps = <[seat := upd p]> ps.
Proof.
  intros Hnd (Hl & Hp & _)%list_find_Some.
  apply list_eq. intros i. rewrite list_lookup_fmap.
  destruct (decide (i = seat)) as [->|Hne].
  - rewrite list_lookup_insert_eq by (by eapply lookup_lt_Some).
    by rewrite Hl; simpl; rewrite Hp.
  - rewrite list_lookup_insert_ne by done.
    destruct (ps !! i) as [q|] eqn:Hq; [|done]. simpl.
    destruct (hasId who q) eqn:Hh; [|done]. exfalso. apply Hne.
    unfold hasId in *. apply bool_decide_eq_true in Hp, Hh.
    eapply (NoDup_lookup _ _ _ _ Hnd); rewrite list_lookup_fmap.
    + by rewrite Hq.
    + rewrite Hl. simpl. congruence.
Qed.

Lemma fmap_update_frame {B} (f : Player → B) (c : Player → bool) (upd : Player → Player)
    (ps : list Player) :
  (∀ q, f (upd q) = f q) → f <$> ((λ q, if c q then upd q else q) <$> ps) = f <$> ps.
Proof.
  intros Hf. rewrite <- list_fmap_compose. apply list_fmap_ext.
  intros i q _. simpl. destruct (c q); [apply Hf|done].
Qed.

Lemma currentSeat_find s who seat p :
  currentSeat s who = Some (seat, p) →
  list_find (λ q, hasId who q = true) (players s) = Some (seat, p).
Proof. unfold currentSeat. by destruct (truthyId who). Qed.

(** Moving [amount] from the chips of the current player to its bet and to
    the pot. *)
Lemma commit_sameStakes s who seat p amount (allIn : Player → bool) (newBet : Player → Z)
    currentBet' :
  distinctIds s →
  currentSeat s who = Some (seat, p) →
  newBet p = bet p + amount →
  let updatedPlayers :=
    (λ player, if hasId who player
               then committed (chips player - amount) (newBet player) (allIn player) player
               else player) <$> players s in
  let s1 := withCurrentBet currentBet'
              (withPot (pot s + amount) (withPlayers updatedPlayers s)) in
  sameStakes s s1 ∧ currentPlayerIndex s1 = currentPlayerIndex s.
Proof.
  intros Hnd Hseat Hbet updatedPlayers s1.
  pose proof (currentSeat_find _ _ _ _ Hseat) as Hfind.
  pose proof Hfind as (Hl & _)%list_find_Some.
  assert (id <$> updatedPlayers = id <$> players s) as Hid
    by (by apply fmap_update_frame).
  split; [|done]. unfold sameStakes, chipsPot, totalChips, totalBets, s1.
  cbn [players pot withPlayers withPot withCurrentBet].
  split; [|split; [|done]]; unfold updatedPlayers;
    rewrite (update_current_seat _ _ _ _ _ Hnd Hfind);
    rewrite !(sumZ_insert _ _ _ p) by done; cbn [chips bet committed]; lia.
Qed.

(** Every handler either returns early or hands [nextPlayer] a state with
    the same stakes. *)
Lemma perform_shape a s :
  distinctIds s →
  perform a s = Returns None ∨
  ∃ s1, perform a s = emit (nextPlayer s1) ∧ sameStakes s s1 ∧
        currentPlayerIndex s1 = currentPlayerIndex s.
Proof.
  intros Hnd. destruct a as [who [| | |betAmount]]; simpl.
  - unfold handleFold.
    destruct (negb (isPlayerTurn s who) || negb (truthyId who)); [by left|right].
    eexists. split; [reflexivity|]. split; [|done].
    unfold sameStakes, chipsPot, totalChips, totalBets. cbn [players pot withPlayers].
    by rewrite !fmap_update_frame.
  - unfold handleCheck.
    destruct (negb (isPlayerTurn s who) || negb (truthyId who)); [by left|].
    destruct (_ && _); [by left|right].
    exists s. split; [done|]. split; [apply sameStakes_refl|done].
  - unfold handleCall.
    destruct (negb (isPlayerTurn s who) || negb (truthyId who)); [by left|].
    destruct (currentPlayer s who) as [cp|] eqn:Hcp; [right|by left].
    destruct (currentPlayer_Some _ _ _ Hcp) as [seat Hseat].
    eexists. split; [reflexivity|].
    set (amount := if bool_decide (chips cp ≤ currentBet s - bet cp)
                   then chips cp else currentBet s - bet cp).
    exact (commit_sameStakes s who seat cp amount
             (λ _, bool_decide (chips cp ≤ currentBet s - bet cp))
             (λ player, bet player + amount) (currentBet s) Hnd Hseat eq_refl).
  - unfold handleRaise.
    destruct (negb (isPlayerTurn s who) || negb (truthyId who)); [by left|].
    destruct (currentPlayer s who) as [cp|] eqn:Hcp; [|by left].
    destruct (bool_decide (chips cp < betAmount - bet cp)); [by left|].
    destruct (bool_decide (betAmount < currentBet s * 2)); [by left|right].
    destruct (currentPlayer_Some _ _ _ Hcp) as [seat Hseat].
    eexists. split; [reflexivity|].
    exact (commit_sameStakes s who seat cp (betAmount - bet cp)
             (λ player, bool_decide (chips player - (betAmount - bet cp) = 0))
             (λ _, betAmount) betAmount Hnd Hseat ltac:(simpl; lia)).
Qed.

(** One action. *)
Lemma perform_step a s :
  distinctIds s →
  (∀ s', settle s (perform a s) = Returns s' →
         sameStakes s s' ∧ (cursorValid s → cursorValid s')) ∧
  (cursorValid s → ∃ s', settle s (perform a s) = Returns s').
Proof.
  intros Hnd.
  destruct (perform_shape a s Hnd) as [-> | (s1 & -> & Hsame & Hcur)]; simpl.
  - split; [|by eauto]. intros s' [= <-]. split; [apply sameStakes_refl|done].
  - split.
    + intros s' Hs'. destruct (nextPlayer s1) as [s2| |] eqn:Hn; simplify_eq/=.
      destruct (nextPlayer_sameStakes _ _ Hn) as [H2 Hc2].
      split; [by eapply sameStakes_trans|done].
    + intros (c & Hc & Hlt).
      destruct (nextPlayer_total s1) as [s2 ->]; [|by eauto].
      exists c. rewrite Hcur. split; [done|].
      destruct Hsame as (_ & _ & Hid). apply (f_equal length) in Hid.
      rewrite !length_fmap in Hid. lia.
Qed.

Lemma sameStakes_distinctIds s s' : sameStakes s s' → distinctIds s → distinctIds s'.
Proof. intros (_ & _ & Hid). unfold distinctIds. by rewrite Hid. Qed.

(** Any sequence of actions. *)
Lemma play_sameStakes actions : ∀ s,
  distinctIds s →
  (∀ s', play actions s = Returns s' → sameStakes s s') ∧
  (cursorValid s → ∃ s', play actions s = Returns s').
Proof.
  induction actions as [|a rest IH]; intros s Hnd; simpl.
  - split; [|by eauto]. intros s' [= <-]. apply sameStakes_refl.
  - destruct (perform_step a s Hnd) as [Hstep Htot]. split.
    + intros s' Hs'.
      destruct (settle s (perform a s)) as [s1| |] eqn:H1; [|done..].
      destruct (Hstep s1 eq_refl) as [Hsame _].
      eapply sameStakes_trans; [exact Hsame|].
      by apply IH; [eapply sameStakes_distinctIds|].
    + intros Hcur. destruct (Htot Hcur) as [s1 H1]. rewrite H1.
      destruct (Hstep s1 H1) as [Hsame Hc1].
      apply IH; [by eapply sameStakes_distinctIds|by apply Hc1].
Qed.

(** C1 (amended). For every game state whose player ids are pairwise
    distinct and every sequence of fold, check, call and raise actions,
    accepted or rejected, [Σ chips + pot] is the same before and after, and
    so is [Σ chips + Σ bet]: a chip that is bet is added to the player's bet
    and to the pot at once, so [Σ chips + Σ bet + pot] changes by exactly the
    growth of the pot.  The sequence runs to its end whenever
    [currentPlayerIndex] is the position of a seat. *)
Theorem chips_conserved (s : GameState) (actions : list Action) :
  distinctIds s →
  (∀ s', play actions s = Returns s' →
         chipsPot s' = chipsPot s ∧
         totalChips s' + totalBets s' = totalChips s + totalBets s ∧
         chipsBetsPot s' = chipsBetsPot s + (pot s' - pot s)) ∧
  (cursorValid s → ∃ s', play actions s = Returns s').
Proof.
  intros Hnd. destruct (play_sameStakes actions s Hnd) as [Hsame Htot].
  split; [|exact Htot].
  intros s' Hs'. destruct (Hsame s' Hs') as (Hcp & Hcb & _).
  split; [done|]. split; [done|]. unfold chipsBetsPot. lia.
Qed.

Lemma chips_conserved_witness :
  ∃ s', play [(Some "player-0", Call); (Some "player-1", Raise 20); (Some "player-2", Fold)]
             tableBet10 = Returns s' ∧
        chipsPot s' = 3000 ∧ chipsPot tableBet10 = 3000.
Proof.
  assert (distinctIds tableBet10) as Hnd.
  { apply (bool_decide_unpack _). vm_compute. exact I. }
  destruct (chips_conserved tableBet10
              [(Some "player-0", Call); (Some "player-1", Raise 20); (Some "player-2", Fold)]
              Hnd) as [Hsame Htot].
  destruct Htot as [s' Hs']; [exists 0%nat; split; [reflexivity|simpl; lia]|].
  exists s'. split; [exact Hs'|].
  destruct (Hsame s' Hs') as (-> & _). split; reflexivity.
Defined.

(** C1 as stated fails: on the table [initializeGame] builds for three
    players, a call by the player to act raises [Σ chips + Σ bet + pot] from
    3015 to 3025. *)
Lemma call_counts_chips_twice :
  let s := initializeGame (λ _, halfU) 3 1000 5 10 in
  chipsBetsPot s = 3015 ∧
  ∃ s', handleCall (Some "player-0") s = Returns (Some s') ∧ chipsBetsPot s' = 3025.
Proof.
  cbn zeta. split; [reflexivity|].
  eexists. split; [vm_compute; reflexivity|]. reflexivity.
Qed.

(** C3 (amended). For the player whose turn it is: a raise to less than
    twice the current bet is rejected and the table is unchanged; a raise to
    at least twice the current bet that the player's chips cover is accepted
    whenever [nextPlayer] can resolve a seat, and then [currentBet] becomes
    [betAmount], which is strictly more than before if the current bet was
    positive (and not less if it was zero), the player's bet becomes
    [betAmount], and the difference to the player's previous bet leaves the
    player's chips and enters the pot. *)
Theorem handleRaise_spec (s : GameState) (who : option string) (seat : nat)
    (p : Player) (betAmount : Z) :
  currentSeat s who = Some (seat, p) →
  isTurn p = true →
  (betAmount < currentBet s * 2 →
     handleRaise who betAmount s = Returns None ∧
     settle s (handleRaise who betAmount s) = Returns s) ∧
  (currentBet s * 2 ≤ betAmount → betAmount - bet p ≤ chips p → cursorUsable s →
     ∃ s' p',
       handleRaise who betAmount s = Returns (Some s') ∧
       currentBet s' = betAmount ∧
       (0 < currentBet s → currentBet s < currentBet s') ∧
       (0 ≤ currentBet s → currentBet s ≤ currentBet s') ∧
       pot s' = pot s + (betAmount - bet p) ∧
       players s' !! seat = Some p' ∧
       id p' = id p ∧
       bet p' = betAmount ∧
       chips p' = chips p - (betAmount - bet p)).
Proof.
  intros Hseat Hturn.
  destruct (currentSeat_Some _ _ _ _ Hseat) as (Htruthy & Hl & Hid & Hcp).
  pose proof (turn_guard _ _ _ Hcp Hturn) as Hguard.
  split.
  - intros Hmin.
    unfold handleRaise. rewrite Hguard, Hcp.
    destruct (bool_decide (chips p < betAmount - bet p)); [done|].
    by rewrite bool_decide_eq_true_2.
  - intros Hmin Hchips (c & Hc & Hok).
    unfold handleRaise. rewrite Hguard, Hcp.
    rewrite (bool_decide_eq_false_2 (chips p < _)) by lia.
    rewrite (bool_decide_eq_false_2 (betAmount < _)) by lia.
    set (upd := λ player, if hasId who player then _ else player).
    set (s1 := withCurrentBet _ _).
    assert (players s1 !! seat = Some (upd p)) as Hl1.
    { unfold s1. cbn [players withCurrentBet withPot withPlayers].
      by rewrite list_lookup_fmap, Hl. }
    destruct (nextPlayer_usable s1) as (k & pk & Hrun & _).
    { exists c. split; [done|].
      unfold s1. cbn [players withCurrentBet withPot withPlayers].
      rewrite length_fmap. destruct Hok as [?|Hex]; [by left|right].
      apply Exists_fmap. eapply Exists_impl; [exact Hex|].
      intros q Hq. unfold upd. simpl. by destruct (hasId who q). }
    assert (markTurn k (players s1) !! seat
            = Some (withTurn (bool_decide (seat = k)) (upd p))) as Hp'
      by (by rewrite markTurn_lookup, Hl1).
    rewrite Hrun. simpl.
    eexists _, (withTurn (bool_decide (seat = k)) (upd p)).
    split; [reflexivity|].
    split; [done|]. split; [simpl; lia|]. split; [simpl; lia|]. split; [done|].
    split; [exact Hp'|].
    unfold upd. by rewrite Hid.
Qed.

Lemma handleRaise_spec_witness :
  ∃ s' p', handleRaise (Some "player-0") 20 tableBet10 = Returns (Some s') ∧
           currentBet s' = 20 ∧ players s' !! 0%nat = Some p' ∧ chips p' = 980.
Proof.
  destruct (handleRaise_spec tableBet10 (Some "player-0") 0 seat0 20 eq_refl eq_refl)
    as [_ Hacc].
  destruct Hacc as (s' & p' & Hrun & Hcb & _ & _ & _ & Hp' & _ & _ & Hchips).
  - simpl. lia.
  - simpl. lia.
  - exists 0%nat. split; [reflexivity|]. left. simpl. lia.
  - exists s', p'. by rewrite Hchips.
Defined.

(** C3 as stated fails: with no bet open, the player to act may "raise"
    to 0; the raise passes both checks and is accepted, and [currentBet]
    stays 0. *)
Lemma raise_to_zero_is_accepted :
  isPlayerTurn tableFlop (Some "player-0") = true ∧
  currentBet tableFlop * 2 ≤ 0 ∧
  ∃ s', handleRaise (Some "player-0") 0 tableFlop = Returns (Some s') ∧
        currentBet s' = currentBet tableFlop.
Proof.
  split; [reflexivity|]. split; [simpl; lia|].
  eexists. split; [vm_compute; reflexivity|]. reflexivity.
Qed.

(** C2. What [initializeGame(2, 1000, 5, 10)] builds: two players; player 0
    is the dealer and has [isTurn]; player 1 carries both blind flags; the
    small blind is taken from player 1 and the big blind from player 0; the
    pot is 15 and the current bet 10; [currentPlayerIndex] is 1. *)
Theorem initializeGame_heads_up (rnd : RandomSource) :
  let g := initializeGame rnd 2 1000 5 10 in
  (λ p, (id p, isDealer p, isTurn p, isSmallBlind p, isBigBlind p, chips p, bet p))
    <$> players g
  = [("player-0", true, true, false, false, 990, 10);
     ("player-1", false, false, true, true, 995, 5)] ∧
  pot g = 15 ∧ currentBet g = 10 ∧ currentPlayerIndex g = Idx 1.
Proof.
  cbn zeta. repeat split.
Qed.

(** ** Further properties: stages, card images, seating *)

(** X1. [getNextStage] walks the stages in order and stops at [ended]: it
    never yields [preflop], [ended] is its only fixed point, and from any
    stage five applications reach [ended]. *)
Theorem getNextStage_walk (st : GameStage) :
  getNextStage st ≠ preflop ∧
  (getNextStage st = st ↔ st = ended) ∧
  Nat.iter 5 getNextStage st = ended.
Proof.
  destruct st; repeat split; intros; try done.
Qed.

(** X2. A face-down card is always drawn with the back image, whatever its
    suit and rank; the image of a face-up card is never the back image, and
    two face-up cards have the same image only if they have the same suit
    and rank. *)
Theorem getCardImage_faithful (c1 c2 : Card) :
  (faceUp c1 = false → getCardImage c1 = backImage) ∧
  (faceUp c1 = true → getCardImage c1 ≠ backImage) ∧
  (faceUp c1 = true → faceUp c2 = true →
     getCardImage c1 = getCardImage c2 → face c1 = face c2).
Proof.
  split; [|split].
  - unfold getCardImage. by intros ->.
  - destruct c1 as [s1 r1 f1]. simpl. intros ->. by destruct s1, r1.
  - destruct c1 as [s1 r1 f1], c2 as [s2 r2 f2]. simpl. intros -> ->.
    destruct s1, r1, s2, r2; intros H; first [reflexivity | discriminate H].
Qed.

Lemma getCardImage_faithful_witness :
  getCardImage (mkCard spades R10 true) = "/images/cards/10s.svg" ∧
  getCardImage (mkCard spades R10 false) = backImage.
Proof.
  destruct (getCardImage_faithful (mkCard spades R10 false) (mkCard spades R10 true))
    as (Hdown & _ & _).
  split; [reflexivity|]. by apply Hdown.
Defined.

Section SeatingFacts.

Context {RoomPlayer : Type} (seatPosition : RoomPlayer → option Z).

Lemma seatTaken_true (room : Room) (i : nat) :
  seatTaken seatPosition room i = true ↔
  ∃ p, p ∈ roomPlayers room ∧ seatPosition p = Some (Z.of_nat i).
Proof.
  unfold seatTaken. rewrite existsb_exists. split.
  - intros (p & Hp & Hs). exists p. split; [by apply list_elem_of_In|].
    by apply bool_decide_eq_true in Hs.
  - intros (p & Hp & Hs). exists p. split; [by apply list_elem_of_In|].
    by apply bool_decide_eq_true.
Qed.

(** More seats than players cannot all be taken. *)
Lemma seats_not_all_taken (room : Room) :
  ¬ ∀ j, (j ≤ length (roomPlayers room))%nat → seatTaken seatPosition room j = true.
Proof.
  intros Hall.
  set (n := length (roomPlayers room)).
  assert ((Some ∘ Z.of_nat <$> seq 0 (n + 1)) ⊆+ (seatPosition <$> roomPlayers room)) as Hsub.
  { apply NoDup_submseteq.
    - apply NoDup_fmap_2; [|apply NoDup_seq].
      intros x y [= H]. lia.
    - intros x (j & -> & Hj)%list_elem_of_fmap. apply elem_of_seq in Hj.
      destruct (proj1 (seatTaken_true room j) (Hall j ltac:(unfold n in *; lia)))
        as (p & Hp & Hs).
      apply list_elem_of_fmap. exists p. by rewrite Hs. }
  apply submseteq_length in Hsub. rewrite !length_fmap, length_seq in Hsub.
  unfold n in Hsub. lia.
Qed.

Lemma scanSeats_spec (room : Room) (todo : nat) : ∀ i,
  (∀ j, (j < i)%nat → seatTaken seatPosition room j = true) →
  let r := scanSeats seatPosition room todo i in
  (seatTaken seatPosition room r = false ∧ (i ≤ r < i + todo)%nat ∧
   ∀ j, (j < r)%nat → seatTaken seatPosition room j = true)
  ∨ (r = length (roomPlayers room) ∧
     ∀ j, (j < i + todo)%nat → seatTaken seatPosition room j = true).
Proof.
  induction todo as [|todo IH]; intros i Hbelow; simpl.
  - right. split; [done|]. intros j Hj. apply Hbelow. lia.
  - destruct (seatTaken seatPosition room i) eqn:Hi; simpl.
    + destruct (IH (S i)) as [(Hfree & Hr & Hlt) | [Hr Hall]].
      { intros j Hj. destruct (decide (j = i)) as [->|]; [done|]. apply Hbelow. lia. }
      * left. split; [done|]. split; [lia|done].
      * right. split; [done|]. intros j Hj. apply Hall. lia.
    + left. split; [done|]. split; [lia|done].
Qed.

(** X3. [getFirstAvailableSeatPosition] returns the least seat number no
    player of the room holds: the seat it returns is free, every smaller
    seat number is taken, and it is at most the number of players, so the
    [return] after the loop is never the one that answers with a taken
    seat. *)
Theorem getFirstAvailableSeatPosition_least (room : Room) :
  let k := getFirstAvailableSeatPosition seatPosition room in
  (k ≤ length (roomPlayers room))%nat ∧
  (∀ p, p ∈ roomPlayers room → seatPosition p ≠ Some (Z.of_nat k)) ∧
  (∀ j, (j < k)%nat → ∃ p, p ∈ roomPlayers room ∧ seatPosition p = Some (Z.of_nat j)).
Proof.
  cbn zeta. unfold getFirstAvailableSeatPosition.
  destruct (scanSeats_spec room (length (roomPlayers room) + 1) 0)
    as [(Hfree & Hr & Hlt) | [_ Hall]]; [intros j Hj; lia| |].
  - split; [lia|]. split.
    + intros p Hp Hs.
      assert (seatTaken seatPosition room
                (scanSeats seatPosition room (length (roomPlayers room) + 1) 0) = true)
        as Ht by (apply seatTaken_true; eauto).
      congruence.
    + intros j Hj. by apply seatTaken_true, Hlt.
  - exfalso. apply (seats_not_all_taken room). intros j Hj. apply Hall. lia.
Qed.

End SeatingFacts.

(** ** Further properties: the turn cursor *)

Lemma nextPlayer_seek s c :
  currentPlayerIndex s = Idx c → players s ≠ [] →
  (∃ t, (t < length (players s))%nat ∧
        stopsAt (players s) (Idx c) ((c + 1 + t) mod length (players s)) ∧
        (∀ t', (t' < t)%nat →
               continuesAt (players s) (Idx c) ((c + 1 + t') mod length (players s))) ∧
        nextPlayer s =
          Returns (withCurrentPlayerIndex (Idx ((c + 1 + t) mod length (players s)))
                     (withPlayers (markTurn ((c + 1 + t) mod length (players s)) (players s))
                        s)))
  ∨ ((∀ m, (m < length (players s))%nat → continuesAt (players s) (Idx c) m) ∧
     nextPlayer s = Diverges).
Proof.
  intros Hc Hne.
  assert (0 < length (players s))%nat as Hlen by (destruct (players s); [done|simpl; lia]).
  unfold nextPlayer, nextPlayerWithin. rewrite Hc. cbn [idxAdd].
  rewrite idxMod_Idx by done.
  destruct (seekActive_decided (players s) (Idx c) (c + 1) Hlen) as
    [(t & Ht & Hs & Hcont & Hrun) | [Hall Hdiv]].
  - left. exists t. rewrite Hrun by lia. done.
  - right. by rewrite Hdiv.
Qed.

(** X4. The three outcomes of [nextPlayer], exactly: it raises a TypeError
    iff there is no player or [currentPlayerIndex] is [NaN]; it loops for
    ever iff there are players, all of them inactive, and
    [currentPlayerIndex] lies past the last seat; it returns in every other
    case, that is iff there are players and the cursor is a seat or some
    player is active. *)
Theorem nextPlayer_outcomes (s : GameState) :
  (nextPlayer s = Throws ↔ players s = [] ∨ currentPlayerIndex s = NaN) ∧
  (nextPlayer s = Diverges ↔
     players s ≠ [] ∧ Forall (λ p, isActive p = false) (players s) ∧
     ∃ c, currentPlayerIndex s = Idx c ∧ (length (players s) ≤ c)%nat) ∧
  ((∃ s', nextPlayer s = Returns s') ↔ players s ≠ [] ∧ cursorUsable s).
Proof.
  destruct (currentPlayerIndex s) as [c|] eqn:Hc.
  2:{ assert (nextPlayer s = Throws) as Hrun.
      { unfold nextPlayer, nextPlayerWithin. by rewrite Hc. }
      rewrite Hrun. split; [|split].
      - split; auto.
      - split; [done|]. by intros (_ & _ & c & ? & _).
      - split; [by intros [s' ?]|]. unfold cursorUsable. rewrite Hc.
        by intros (_ & c & ? & _). }
  destruct (decide (players s = [])) as [Hps|Hne].
  { assert (nextPlayer s = Throws) as Hrun.
    { unfold nextPlayer, nextPlayerWithin. by rewrite Hc, Hps. }
    rewrite Hrun. split; [|split].
    - split; auto.
    - split; [done|]. by intros (? & _).
    - split; [by intros [s' ?]|]. by intros (? & _). }
  destruct (nextPlayer_seek s c Hc Hne) as
    [(t & Ht & (pk & Hpk & Hstop) & _ & Hrun) | [Hall Hrun]]; rewrite Hrun.
  - assert (cursorUsable s) as Huse.
    { exists c. split; [done|].
      destruct Hstop as [Hact | Hcur].
      - right. apply Exists_exists. exists pk. split; [|done].
        apply list_elem_of_lookup. eauto.
      - left. simpl in Hcur. apply bool_decide_eq_true in Hcur. rewrite <- Hcur.
        apply Nat.mod_upper_bound. destruct (players s); [done|simpl; lia]. }
    split; [|split].
    + split; [done|]. intros [?|?]; congruence.
    + split; [done|]. intros (_ & Hin & c' & Hc' & Hge). simplify_eq.
      destruct Hstop as [Hact | Hcur].
      * rewrite Forall_lookup in Hin. specialize (Hin _ _ Hpk). congruence.
      * simpl in Hcur. apply bool_decide_eq_true in Hcur. rewrite Hcur in Hpk.
        pose proof (lookup_lt_Some _ _ _ Hpk). lia.
    + split; [done|]. eauto.
  - assert (Forall (λ p, isActive p = false) (players s)) as Hin.
    { apply Forall_lookup. intros m p Hm.
      destruct (Hall m (lookup_lt_Some _ _ _ Hm)) as (q & Hq & Hqa & _). congruence. }
    assert (length (players s) ≤ c)%nat as Hge.
    { destruct (decide (c < length (players s))%nat) as [Hlt|]; [|lia].
      destruct (Hall c Hlt) as (q & _ & _ & Hq). simpl in Hq.
      by rewrite bool_decide_eq_false in Hq. }
    split; [|split].
    + split; [done|]. intros [?|?]; congruence.
    + split; [|done]. intros _. split; [done|]. split; [done|]. eauto.
    + split; [by intros [s' ?]|].
      intros (_ & c' & Hc' & [Hlt | Hex]).
      { assert (c' = c) as -> by congruence. lia. }
      apply Exists_exists in Hex as (q & Hq & Hqa).
      rewrite Forall_forall in Hin. specialize (Hin q Hq). congruence.
Qed.

(** X5. When [nextPlayer] returns, the seat [k] it gives the turn to is
    the first one after the cursor, in cyclic table order, that is active or
    is the cursor's own seat: the player at [k] is active or [k] is the
    cursor, and every seat passed over on the way is inactive and is not the
    cursor, so no active player is skipped.  The state returned has
    [currentPlayerIndex = k], [isTurn] set for the player at seat [k] and for
    no other, and is otherwise the state given. *)
Theorem nextPlayer_skips_only_inactive (s s' : GameState) (c : nat) :
  currentPlayerIndex s = Idx c →
  nextPlayer s = Returns s' →
  ∃ t k pk,
    (t < length (players s))%nat ∧
    k = ((c + 1 + t) mod length (players s))%nat ∧
    players s !! k = Some pk ∧
    (isActive pk = true ∨ k = c) ∧
    (∀ t', (t' < t)%nat →
           ∃ p, players s !! ((c + 1 + t') mod length (players s))%nat = Some p ∧
                isActive p = false ∧
                ((c + 1 + t') mod length (players s))%nat ≠ c) ∧
    currentPlayerIndex s' = Idx k ∧
    length (players s') = length (players s) ∧
    (∀ i p, players s !! i = Some p →
            players s' !! i = Some (withTurn (bool_decide (i = k)) p)) ∧
    (∃ p', players s' !! k = Some p' ∧ isTurn p' = true) ∧
    s' = withCurrentPlayerIndex (Idx k) (withPlayers (players s') s).
Proof.
  intros Hc Hrun.
  assert (players s ≠ []) as Hne.
  { intros Hnil. unfold nextPlayer, nextPlayerWithin in Hrun. by rewrite Hc, Hnil in Hrun. }
  destruct (nextPlayer_seek s c Hc Hne)
    as [(t & Ht & (pk & Hpk & Hstop) & Hcont & Hrun') | [_ Hdiv]]; [|congruence].
  rewrite Hrun' in Hrun. injection Hrun as <-.
  set (k := ((c + 1 + t) mod length (players s))%nat) in *.
  exists t, k, pk. split; [done|]. split; [done|]. split; [done|]. split.
  { destruct Hstop as [Ha|Hcur]; [by left|right].
    simpl in Hcur. by apply bool_decide_eq_true in Hcur. }
  split.
  { intros t' Ht'. destruct (Hcont t' Ht') as (p & Hp & Ha & Hcur).
    exists p. split; [done|]. split; [done|].
    simpl in Hcur. by apply bool_decide_eq_false in Hcur. }
  split; [done|].
  cbn [players withPlayers withCurrentPlayerIndex].
  split; [apply markTurn_length|]. split.
  { intros i p Hi. by rewrite markTurn_lookup, Hi. }
  split; [|done].
  exists (withTurn (bool_decide (k = k)) pk). rewrite markTurn_lookup, Hpk.
  split; [done|]. simpl. by apply bool_decide_eq_true.
Qed.

Lemma nextPlayer_skips_only_inactive_witness :
  ∃ s', nextPlayer table0 = Returns s' ∧ currentPlayerIndex s' = Idx 0 ∧
        ∃ p, players table0 !! 1%nat = Some p ∧ isActive p = false.
Proof.
  assert (nextPlayer table0 = Returns
            (withCurrentPlayerIndex (Idx 0)
               (withPlayers (markTurn 0 (players table0)) table0))) as Hrun
    by reflexivity.
  destruct (nextPlayer_skips_only_inactive table0 _ 0 eq_refl Hrun)
    as (t & k & pk & _ & _ & _ & _ & _ & Hk & _).
  eexists. split; [exact Hrun|]. split; [reflexivity|].
  eexists. split; reflexivity.
Defined.

(** ** Further properties: the betting handlers *)

Lemma not_turn_rejected s who m :
  isPlayerTurn s who = false → perform (who, m) s = Returns None.
Proof.
  intros H. destruct m; simpl;
    unfold handleFold, handleCheck, handleCall, handleRaise; by rewrite H.
Qed.

Lemma isPlayerTurn_seat s who seat p :
  currentSeat s who = Some (seat, p) → isPlayerTurn s who = isTurn p.
Proof.
  intros Hs. destruct (currentSeat_Some _ _ _ _ Hs) as (_ & _ & _ & Hcp).
  unfold isPlayerTurn. by rewrite Hcp.
Qed.

(** What a handler does for the player to act, with distinct ids: it runs
    [nextPlayer] on the accepted move when its guards allow the move, and
    returns early otherwise. *)
Lemma perform_turn s who seat p m :
  distinctIds s →
  currentSeat s who = Some (seat, p) →
  isTurn p = true →
  perform (who, m) s =
    if decide (moveAllowed m p s)
    then emit (nextPlayer (acceptedMove m seat p s))
    else Returns None.
Proof.
  intros Hnd Hseat Hturn.
  destruct (currentSeat_Some _ _ _ _ Hseat) as (Htruthy & Hl & Hid & Hcp).
  pose proof (turn_guard _ _ _ Hcp Hturn) as Hguard.
  pose proof (currentSeat_find _ _ _ _ Hseat) as Hfind.
  destruct m as [| | |betAmount]; simpl.
  - unfold handleFold. rewrite Hguard.
    by rewrite (update_current_seat folded _ _ _ _ Hnd Hfind).
  - unfold handleCheck. rewrite Hguard, Hcp. simpl.
    destruct (decide _) as [Hok|Hno].
    + destruct (bool_decide (0 < currentBet s)) eqn:Hpos; [|done].
      apply bool_decide_eq_true in Hpos.
      destruct (bool_decide (bet p = currentBet s)) eqn:Hb; [done|].
      apply bool_decide_eq_false in Hb. by destruct Hok.
    + destruct (bool_decide (0 < currentBet s)) eqn:Hpos.
      * destruct (bool_decide (bet p = currentBet s)) eqn:Hb; [|done].
        apply bool_decide_eq_true in Hb. destruct Hno. by intros [_ ?].
      * apply bool_decide_eq_false in Hpos. destruct Hno. by intros [? _].
  - unfold handleCall. rewrite Hguard, Hcp.
    by rewrite (update_current_seat
                  (λ player, committed (chips player - _) (bet player + _) _ player)
                  _ _ _ _ Hnd Hfind).
  - unfold handleRaise. rewrite Hguard, Hcp.
    destruct (decide _) as [[Hchips Hmin]|Hno].
    + rewrite (bool_decide_eq_false_2 (chips p < _)) by lia.
      rewrite (bool_decide_eq_false_2 (betAmount < _)) by lia.
      by rewrite (update_current_seat
                    (λ player, committed (chips player - _) betAmount
                                 (bool_decide (chips player - _ = 0)) player)
                    _ _ _ _ Hnd Hfind).
    + destruct (bool_decide (chips p < betAmount - bet p)) eqn:Hc; [done|].
      apply bool_decide_eq_false in Hc.
      destruct (bool_decide (betAmount < currentBet s * 2)) eqn:Hm; [done|].
      apply bool_decide_eq_false in Hm. destruct Hno. lia.
Qed.

(** Every state a handler emits comes from an allowed move of the player
    whose turn it is. *)
Lemma perform_emitted s who m s' :
  distinctIds s →
  perform (who, m) s = Returns (Some s') →
  ∃ seat p,
    currentSeat s who = Some (seat, p) ∧ isTurn p = true ∧ moveAllowed m p s ∧
    nextPlayer (acceptedMove m seat p s) = Returns s'.
Proof.
  intros Hnd Hrun.
  destruct (currentSeat s who) as [[seat p]|] eqn:Hseat.
  - destruct (isTurn p) eqn:Hturn.
    + rewrite (perform_turn _ _ _ _ _ Hnd Hseat Hturn) in Hrun.
      destruct (decide _) as [Hok|]; [|done].
      exists seat, p. repeat split; try done.
      destruct (nextPlayer _); by simplify_eq/=.
    + rewrite not_turn_rejected in Hrun; [done|].
      by rewrite (isPlayerTurn_seat _ _ _ _ Hseat).
  - rewrite not_turn_rejected in Hrun; [done|].
    unfold isPlayerTurn, currentPlayer. by rewrite Hseat.
Qed.

Lemma nextPlayer_Returns_inv s s' :
  nextPlayer s = Returns s' →
  ∃ k pk, s' = turnAt k s ∧ players s !! k = Some pk ∧
          (isActive pk = true ∨ Forall (λ p, isActive p = false) (players s)).
Proof.
  intros Hrun.
  destruct (currentPlayerIndex s) as [c|] eqn:Hc;
    [|unfold nextPlayer, nextPlayerWithin in Hrun; by rewrite Hc in Hrun].
  assert (players s ≠ []) as Hne.
  { intros Hnil. unfold nextPlayer, nextPlayerWithin in Hrun. by rewrite Hc, Hnil in Hrun. }
  destruct (nextPlayer_seek s c Hc Hne) as
    [(t & Ht & (pk & Hpk & Hstop) & _ & Hrun') | [_ Hdiv]]; [|congruence].
  destruct (nextPlayer_returns s c Hc) as (k & qk & Hrun'' & Hqk & Hact).
  { destruct Hstop as [Hact|Hcur]; [right; eauto|left].
    simpl in Hcur. apply bool_decide_eq_true in Hcur. rewrite Hcur in Hpk.
    by eapply lookup_lt_Some. }
  exists k, qk. split; [unfold turnAt; congruence|done].
Qed.

Lemma activeCount_same (ps ps' : list Player) :
  isActive <$> ps' = isActive <$> ps → activeCount ps' = activeCount ps.
Proof.
  revert ps'. induction ps as [|p ps IH]; intros [|p' ps'] H; try done.
  rewrite !fmap_cons in H. injection H as Hp Hps.
  by rewrite !activeCount_cons, Hp, (IH _ Hps).
Qed.

Lemma activeCount_fold (ps : list Player) : ∀ seat p,
  ps !! seat = Some p →
  activeCount (<[seat := folded p]> ps)
  = (activeCount ps - (if isActive p then 1 else 0))%nat.
Proof.
  induction ps as [|q ps IH]; intros [|seat] p Hl; simplify_eq/=.
  - rewrite !activeCount_cons. simpl. destruct (isActive p); lia.
  - rewrite !activeCount_cons, (IH _ _ Hl).
    assert (is_Some (ps !! seat)) as [r Hr] by eauto.
    destruct (isActive p) eqn:Hp; [|lia].
    assert (1 ≤ activeCount ps)%nat; [|destruct (isActive q); lia].
    clear -Hl Hp. revert seat Hl. induction ps as [|r ps IH]; intros [|seat] Hl;
      simplify_eq/=; rewrite activeCount_cons.
    + rewrite Hp. lia.
    + specialize (IH _ Hl). lia.
Qed.

(** X6. An accepted fold, on a table with distinct ids, changes the folding
    player to inactive and nothing else but the turn: the number of active
    players drops by one if the player was active, and the turn goes to an
    active player other than the folder unless no player is left active. *)
Theorem handleFold_effect (s s' : GameState) (who : option string) :
  distinctIds s →
  handleFold who s = Returns (Some s') →
  ∃ seat p k pk,
    currentSeat s who = Some (seat, p) ∧
    s' = turnAt k (withPlayers (<[seat := folded p]> (players s)) s) ∧
    activeCount (players s')
    = (activeCount (players s) - (if isActive p then 1 else 0))%nat ∧
    players s' !! k = Some pk ∧ isTurn pk = true ∧
    ((isActive pk = true ∧ k ≠ seat) ∨ Forall (λ q, isActive q = false) (players s')).
Proof.
  intros Hnd Hrun.
  destruct (perform_emitted s who Fold s' Hnd Hrun) as (seat & p & Hseat & _ & _ & Hnext).
  destruct (currentSeat_Some _ _ _ _ Hseat) as (_ & Hl & _).
  destruct (nextPlayer_Returns_inv _ _ Hnext) as (k & pk & -> & Hpk & Hact).
  simpl in Hpk, Hact.
  exists seat, p, k, (withTurn true pk). split; [done|]. split; [done|].
  unfold turnAt. cbn [players withPlayers withCurrentPlayerIndex acceptedMove].
  split.
  { rewrite <- (activeCount_fold _ _ _ Hl). apply activeCount_same.
    by apply fmap_markTurn. }
  split; [by rewrite markTurn_lookup, Hpk; simpl; rewrite bool_decide_eq_true_2|].
  split; [done|].
  destruct Hact as [Hact|Hall].
  - left. split; [done|]. intros ->.
    rewrite list_lookup_insert_eq in Hpk by (by eapply lookup_lt_Some).
    by simplify_eq.
  - right. apply Forall_lookup. intros i q Hq. rewrite markTurn_lookup in Hq.
    destruct (_ !! i) as [r|] eqn:Hr; simplify_eq/=.
    rewrite Forall_lookup in Hall. by apply (Hall i r).
Qed.

Lemma handleFold_effect_witness :
  ∃ s', handleFold (Some "player-0") tableBet10 = Returns (Some s') ∧
        activeCount (players s') = 2%nat.
Proof.
  assert (distinctIds tableBet10) as Hnd.
  { apply (bool_decide_unpack _). vm_compute. exact I. }
  eexists. split; [vm_compute; reflexivity|].
  match goal with |- activeCount (players ?t) = _ =>
    destruct (handleFold_effect tableBet10 t (Some "player-0") Hnd)
      as (seat & p & k & pk & Hseat & _ & -> & _) end.
  - vm_compute. reflexivity.
  - vm_compute in Hseat. by injection Hseat as <- <-.
Defined.

(** X7. After an accepted call, on a table with distinct ids, the caller
    has matched the current bet or is all-in with no chips left: a player
    whose chips exceed the amount to call pays exactly that amount and is
    not all-in; any other player pays all its chips and is flagged all-in.
    The pot grows by what the caller paid and the current bet stays. *)
Theorem handleCall_effect (s s' : GameState) (who : option string) :
  distinctIds s →
  handleCall who s = Returns (Some s') →
  ∃ seat p p',
    currentSeat s who = Some (seat, p) ∧
    players s' !! seat = Some p' ∧
    (currentBet s - bet p < chips p →
       bet p' = currentBet s ∧ chips p' = chips p - (currentBet s - bet p) ∧
       isAllIn p' = false) ∧
    (chips p ≤ currentBet s - bet p →
       bet p' = bet p + chips p ∧ chips p' = 0 ∧ isAllIn p' = true) ∧
    pot s' = pot s + (bet p' - bet p) ∧
    currentBet s' = currentBet s.
Proof.
  intros Hnd Hrun.
  destruct (perform_emitted s who Call s' Hnd Hrun) as (seat & p & Hseat & _ & _ & Hnext).
  destruct (currentSeat_Some _ _ _ _ Hseat) as (_ & Hl & _).
  destruct (nextPlayer_Returns_inv _ _ Hnext) as (k & pk & -> & _).
  pose proof (lookup_lt_Some _ _ _ Hl) as Hlt.
  eexists seat, p, _. split; [done|].
  unfold turnAt. cbn [players pot currentBet withPlayers withPot withCurrentPlayerIndex
                      acceptedMove].
  split; [by rewrite markTurn_lookup, list_lookup_insert_eq|].
  cbn [bet chips isAllIn withTurn committed].
  split; [|split; [|split; [|done]]].
  - intros Hmore. rewrite bool_decide_eq_false_2 by lia. split; [lia|done].
  - intros Hless. rewrite bool_decide_eq_true_2 by done. split; [done|]. split; [lia|done].
  - case_bool_decide; lia.
Qed.

Lemma handleCall_effect_witness :
  ∃ s' p', handleCall (Some "player-0") tableBet10 = Returns (Some s') ∧
           players s' !! 0%nat = Some p' ∧ bet p' = 10.
Proof.
  assert (distinctIds tableBet10) as Hnd.
  { apply (bool_decide_unpack _). vm_compute. exact I. }
  assert (∃ s', handleCall (Some "player-0") tableBet10 = Returns (Some s')) as [s' Hrun]
    by (vm_compute; eauto).
  destruct (handleCall_effect tableBet10 s' (Some "player-0") Hnd Hrun)
    as (seat & p & p' & Hseat & Hp' & Hmore & _).
  vm_compute in Hseat. injection Hseat as <- <-.
  exists s', p'. split; [exact Hrun|]. split; [exact Hp'|].
  apply Hmore. simpl. lia.
Defined.

Lemma Forall_markTurn (P : Player → Prop) k ps :
  (∀ b p, P p → P (withTurn b p)) → Forall P ps → Forall P (markTurn k ps).
Proof.
  intros HP Hall. apply Forall_lookup. intros i q Hq. rewrite markTurn_lookup in Hq.
  destruct (ps !! i) as [r|] eqn:Hr; simplify_eq/=.
  apply HP. rewrite Forall_lookup in Hall. by apply (Hall i).
Qed.

Lemma insert_same_ids (ps : list Player) seat p q :
  ps !! seat = Some p → id q = id p → id <$> <[seat := q]> ps = id <$> ps.
Proof.
  intros Hl Hid. rewrite list_fmap_insert, Hid. apply list_insert_id.
  by rewrite list_lookup_fmap, Hl.
Qed.

(** An accepted move keeps a table in good standing. *)
Lemma acceptedMove_sane m seat p s :
  tableSane s → players s !! seat = Some p → moveAllowed m p s →
  tableSane (acceptedMove m seat p s).
Proof.
  intros (Hnd & Hcb & Hpot & Hall) Hl Hok.
  pose proof (Forall_lookup_1 _ _ _ _ Hall Hl) as (Hchips & Hbet & Hle).
  unfold tableSane, distinctIds.
  destruct m as [| | |betAmount]; simpl in *.
  - rewrite (insert_same_ids _ _ _ _ Hl) by done.
    repeat split; try done. by apply Forall_insert.
  - done.
  - rewrite (insert_same_ids _ _ _ _ Hl) by done.
    case_bool_decide; (split; [done|]; split; [done|]; split; [lia|]);
      apply Forall_insert; try done; simpl; lia.
  - destruct Hok as [Hcover Hmin].
    rewrite (insert_same_ids _ _ _ _ Hl) by done.
    split; [done|]. split; [lia|]. split; [lia|].
    apply Forall_insert; [|simpl; lia].
    eapply Forall_impl; [exact Hall|]. simpl. intros q ?. lia.
Qed.

Lemma turnAt_sane k s : tableSane s → tableSane (turnAt k s).
Proof.
  intros (Hnd & Hcb & Hpot & Hall). unfold tableSane, distinctIds, turnAt.
  cbn [players pot currentBet withPlayers withCurrentPlayerIndex].
  rewrite fmap_markTurn by done. repeat split; try done.
  by apply Forall_markTurn.
Qed.

Lemma perform_sane a s s' :
  tableSane s → settle s (perform a s) = Returns s' → tableSane s'.
Proof.
  intros Hsane Hrun. destruct a as [who m].
  destruct (perform (who, m) s) as [[s1|]| |] eqn:Hp; simplify_eq/=; [|done].
  destruct (perform_emitted s who m s' (proj1 Hsane) Hp) as (seat & p & Hseat & _ & Hok & Hn).
  destruct (currentSeat_Some _ _ _ _ Hseat) as (_ & Hl & _).
  destruct (nextPlayer_Returns_inv _ _ Hn) as (k & pk & -> & _).
  by apply turnAt_sane, acceptedMove_sane.
Qed.

(** X8. A table in good standing stays so under every sequence of fold,
    check, call and raise actions: with distinct player ids, non-negative
    chips, bets, pot and current bet, and no bet above the current bet
    before, the same holds after.  In particular no call or raise takes a
    player's chips below zero and [currentBet] stays the largest bet. *)
Theorem play_keeps_table_sane (actions : list Action) (s s' : GameState) :
  tableSane s → play actions s = Returns s' → tableSane s'.
Proof.
  revert s. induction actions as [|a rest IH]; intros s Hsane Hrun; simpl in Hrun.
  - by injection Hrun as <-.
  - destruct (settle s (perform a s)) as [s1| |] eqn:H1; [|done..].
    apply (IH s1); [|done]. by eapply perform_sane.
Qed.

Lemma play_keeps_table_sane_witness :
  ∃ s', play [(Some "player-0", Raise 20); (Some "player-1", Call)] tableBet10
        = Returns s' ∧ tableSane s'.
Proof.
  assert (tableSane tableBet10) as Hsane.
  { split; [apply (bool_decide_unpack _); vm_compute; exact I|].
    split; [simpl; lia|]. split; [simpl; lia|].
    repeat constructor; simpl; lia. }
  assert (∃ s', play [(Some "player-0", Raise 20); (Some "player-1", Call)] tableBet10
                = Returns s') as [s' Hs'] by (vm_compute; eauto).
  exists s'. split; [exact Hs'|].
  exact (play_keeps_table_sane _ tableBet10 s' Hsane Hs').
Defined.

Lemma cursorUsable_same_seats s s1 :
  currentPlayerIndex s1 = currentPlayerIndex s →
  isActive <$> players s1 = isActive <$> players s →
  cursorUsable s → cursorUsable s1.
Proof.
  intros Hcur Hact (c & Hc & Hok). exists c. split; [congruence|].
  assert (length (players s1) = length (players s)) as Hlen
    by (by rewrite <- (length_fmap isActive), Hact, length_fmap).
  destruct Hok as [?|Hex]; [left; lia|right].
  apply Exists_exists in Hex as (p & Hp & Ha).
  apply list_elem_of_lookup in Hp as [i Hi].
  assert ((isActive <$> players s1) !! i = Some true) as H1
    by (by rewrite Hact, list_lookup_fmap, Hi; simpl; rewrite Ha).
  rewrite list_lookup_fmap in H1.
  destruct (players s1 !! i) as [q|] eqn:Hq; simplify_eq/=.
  apply Exists_exists. exists q. split; [|done]. apply list_elem_of_lookup. eauto.
Qed.

Lemma emit_Returns r :
  (∃ s', emit r = Returns (Some s')) ↔ ∃ s', r = Returns s'.
Proof.
  destruct r; simpl; split; intros [s' H]; simplify_eq; eauto.
Qed.

(** X9. For the player whose turn it is, [handleRaise] accepts a raise to
    [betAmount] exactly when [betAmount] lies in the range of the bet slider,
    from twice the current bet to the player's chips plus bet (provided
    [nextPlayer] can resolve a seat). *)
Theorem raise_accepted_iff_on_slider (s : GameState) (who : option string) (p : Player)
    (betAmount : Z) :
  currentPlayer s who = Some p →
  isTurn p = true →
  cursorUsable s →
  (∃ s', handleRaise who betAmount s = Returns (Some s')) ↔
  sliderMin s ≤ betAmount ≤ sliderMax p.
Proof.
  intros Hcp Hturn Huse. unfold handleRaise, sliderMin, sliderMax.
  rewrite (turn_guard _ _ _ Hcp Hturn), Hcp.
  destruct (bool_decide (chips p < betAmount - bet p)) eqn:Hc.
  { apply bool_decide_eq_true in Hc. split; [by intros [s' ?]|lia]. }
  apply bool_decide_eq_false in Hc.
  destruct (bool_decide (betAmount < currentBet s * 2)) eqn:Hm.
  { apply bool_decide_eq_true in Hm. split; [by intros [s' ?]|lia]. }
  apply bool_decide_eq_false in Hm.
  split; [lia|]. intros _. apply emit_Returns.
  match goal with |- ∃ s', nextPlayer ?s1 = _ =>
    destruct (nextPlayer_usable s1) as (k & pk & Hrun & _); [|eauto] end.
  eapply cursorUsable_same_seats; [| |exact Huse]; [done|].
  cbn [players withCurrentBet withPot withPlayers].
  rewrite <- list_fmap_compose. apply list_fmap_ext. intros i q _. simpl.
  by destruct (hasId who q).
Qed.

Lemma raise_accepted_iff_on_slider_witness :
  (∃ s', handleRaise (Some "player-0") 1000 tableBet10 = Returns (Some s')) ∧
  ¬ (∃ s', handleRaise (Some "player-0") 1001 tableBet10 = Returns (Some s')).
Proof.
  assert (cursorUsable tableBet10) as Huse.
  { exists 0%nat. split; [reflexivity|]. left. simpl. lia. }
  split.
  - apply (raise_accepted_iff_on_slider tableBet10 (Some "player-0") seat0 1000 eq_refl eq_refl Huse).
    unfold sliderMin, sliderMax. simpl. lia.
  - intros H.
    apply (raise_accepted_iff_on_slider tableBet10 (Some "player-0") seat0 1001 eq_refl eq_refl Huse) in H.
    unfold sliderMin, sliderMax in H. simpl in H. lia.
Defined.

(** X10. The Check and Call buttons are never enabled together.  With a
    non-negative current bet, [handleCheck] accepts a check exactly when the
    Check button is enabled; and an enabled Call by a player who has chips
    is accepted and adds a positive amount to the pot (each provided
    [nextPlayer] can resolve a seat). *)
Theorem check_and_call_buttons (s : GameState) (who : option string) :
  canCheck s who && canCall s who = false ∧
  (0 ≤ currentBet s → cursorUsable s →
     (checkEnabled s who = true ↔ ∃ s', handleCheck who s = Returns (Some s'))) ∧
  (callEnabled s who = true → cursorUsable s →
     ∀ p, currentPlayer s who = Some p → 0 < chips p →
          ∃ s', handleCall who s = Returns (Some s') ∧ pot s < pot s').
Proof.
  split; [|split].
  - unfold canCheck, canCall.
    destruct (currentPlayer s who) as [p|]; repeat case_bool_decide; simpl; try done; lia.
  - intros Hcb Huse. unfold checkEnabled, canCheck, handleCheck, isPlayerTurn.
    destruct (currentPlayer s who) as [p|] eqn:Hcp; simpl.
    2:{ split; [done|]. by intros [s' ?]. }
    destruct (isTurn p) eqn:Hturn; simpl.
    2:{ split; [done|]. by intros [s' ?]. }
    destruct (currentPlayer_Some _ _ _ Hcp) as [seat Hseat].
    destruct (currentSeat_Some _ _ _ _ Hseat) as (-> & _). simpl.
    destruct (nextPlayer_usable s Huse) as (k & pk & Hrun & _).
    rewrite Hrun.
    destruct (decide (bet p = currentBet s)) as [Hb|Hb].
    + rewrite (bool_decide_eq_true_2 _ Hb), orb_true_r, andb_false_r. simpl.
      split; [eauto|done].
    + rewrite (bool_decide_eq_false_2 _ Hb), orb_false_r, andb_true_r. simpl.
      destruct (decide (currentBet s = 0)) as [H0|H0].
      * rewrite (bool_decide_eq_true_2 _ H0), bool_decide_eq_false_2 by lia. simpl.
        split; [eauto|done].
      * rewrite (bool_decide_eq_false_2 _ H0), bool_decide_eq_true_2 by lia. simpl.
        split; [done|]. by intros [s' ?].
  - intros Hen Huse p Hcp Hchips.
    unfold callEnabled, canCall in Hen. rewrite Hcp in Hen.
    apply negb_true_iff, orb_false_iff in Hen as [Hturn Hcan].
    apply negb_false_iff in Hturn, Hcan.
    apply andb_true_iff in Hcan as [Hpos Hless].
    apply bool_decide_eq_true in Hpos, Hless.
    apply isPlayerTurn_true in Hturn as (q & Hq & Hturn).
    rewrite Hcp in Hq. injection Hq as <-.
    unfold handleCall. rewrite (turn_guard _ _ _ Hcp Hturn), Hcp.
    match goal with |- ∃ s', emit (nextPlayer ?s1) = _ ∧ _ =>
      destruct (nextPlayer_usable s1) as (k & pk & Hrun & _) end.
    { eapply cursorUsable_same_seats; [| |exact Huse]; [done|].
      cbn [players withPot withPlayers].
      rewrite <- list_fmap_compose. apply list_fmap_ext. intros i r _. simpl.
      by destruct (hasId who r). }
    rewrite Hrun. simpl. eexists. split; [reflexivity|]. simpl.
    case_bool_decide; lia.
Qed.

Lemma check_and_call_buttons_witness :
  callEnabled tableBet10 (Some "player-0") = true ∧
  ∃ s', handleCall (Some "player-0") tableBet10 = Returns (Some s') ∧ 15 < pot s'.
Proof.
  assert (cursorUsable tableBet10) as Huse.
  { exists 0%nat. split; [reflexivity|]. left. simpl. lia. }
  destruct (check_and_call_buttons tableBet10 (Some "player-0")) as (_ & _ & Hcall).
  split; [reflexivity|].
  apply (Hcall eq_refl Huse seat0 eq_refl). simpl. lia.
Defined.

(** ** Further properties: dealing from a short deck, stage advance *)

(** X11. [dealCards] with any deck, short or not: it takes
    [min(2N, deck.length)] cards off the top of the deck for [N] active
    players, every card taken ends face down in a hand and no other card
    appears in a hand, inactive players are left as they are, and nothing
    but hands and deck changes. *)
Theorem dealCards_any_deck (s : GameState) :
  ∃ removed,
    deck s = deck (dealCards s) ++ removed ∧
    length removed = Nat.min (2 * activeCount (players s)) (length (deck s)) ∧
    concat (cards <$> players (dealCards s))
      ≡ₚ concat (cards <$> players s) ++ (withFaceUp false <$> removed) ∧
    Forall2 (λ p p', p' = withCards (cards p') p ∧ (isActive p = false → p' = p))
            (players s) (players (dealCards s)) ∧
    dealCards s = withDeck (deck (dealCards s)) (withPlayers (players (dealCards s)) s).
Proof.
  destruct (dealCards_conserves s) as (removed & Hd & Hs & _ & Hperm).
  exists removed. split; [done|]. split; [|split; [done|split; [|done]]].
  - assert (length (deck (dealCards s))
            = length (deck s) - 2 * activeCount (players s))%nat as Hlen.
    { rewrite dealCards_rounds. cbn zeta. cbn [deck withDeck].
      destruct (dealRound_spec (players s) (deck s)) as (? & _ & Hf1 & _).
      rewrite !dealRound_length, (dealt_activeCount _ _ _ Hf1). lia. }
    apply (f_equal length) in Hd. rewrite length_app in Hd. lia.
  - rewrite dealCards_rounds. cbn zeta. cbn [players withDeck withPlayers].
    destruct (dealRound_spec (players s) (deck s)) as (d1 & _ & Hf1 & _).
    set (r1 := dealRound (players s) (deck s)) in *.
    destruct (dealRound_spec r1.1 r1.2) as (d2 & _ & Hf2 & _).
    eapply Forall2_compose; [|exact Hf1|exact Hf2].
    intros p p1 p2 [Hp1 Hc1] [Hp2 Hc2]. simpl in *.
    split; [rewrite Hp2, Hp1; reflexivity|].
    intros Hin. assert (isActive p1 = false) as Hin1 by (by rewrite Hp1).
    rewrite Hin in Hc1. rewrite Hin1 in Hc2.
    rewrite Hp2, Hc2, Hp1, Hc1. by destruct p.
Qed.

Lemma dealCommunity_moves n : ∀ d cc,
  ∃ moved,
    d = (dealCommunity n d cc).1 ++ moved ∧
    (dealCommunity n d cc).2 = cc ++ (withFaceUp true <$> reverse moved) ∧
    length moved = Nat.min n (length d).
Proof.
  induction n as [|n IH]; intros d cc.
  - exists []. simpl. by rewrite !app_nil_r.
  - destruct d as [|c d _] using rev_ind.
    + cbn [dealCommunity]. rewrite pop_nil.
      destruct (IH [] cc) as (moved & Hd & Hc & Hl).
      exists moved. split; [done|]. split; [done|]. cbn [length] in *. lia.
    + rewrite dealCommunity_snoc.
      destruct (IH d (cc ++ [withFaceUp true c])) as (moved & Hd & Hc & Hl).
      exists (moved ++ [c]). split; [by rewrite (assoc_L (++)), <- Hd|]. split.
      * rewrite Hc, reverse_app. simpl. by rewrite <- (assoc_L (++)).
      * rewrite !length_app. cbn [length]. lia.
Qed.

Lemma dealCommunityCards_moves (s : GameState) :
  ∃ moved,
    deck s = deck (dealCommunityCards s) ++ moved ∧
    communityCards (dealCommunityCards s)
    = communityCards s ++ (withFaceUp true <$> reverse moved) ∧
    length moved = Nat.min (cardsToAdd (stage s)) (length (deck s)) ∧
    dealCommunityCards s
    = withDeck (deck (dealCommunityCards s))
        (withCommunityCards (communityCards (dealCommunityCards s)) s) ∧
    cardCount (dealCommunityCards s) = cardCount s.
Proof.
  assert (∀ n, n = cardsToAdd (stage s) →
            dealCommunityCards s
            = withDeck (dealCommunity n (deck s) (communityCards s)).1
                (withCommunityCards (dealCommunity n (deck s) (communityCards s)).2 s))
    as Hrun.
  { intros n ->. unfold dealCommunityCards.
    destruct (stage s); cbn [cardsToAdd]; try (by destruct s);
      match goal with |- context [dealCommunity ?n ?d ?c] =>
        by destruct (dealCommunity n d c) end. }
  rewrite (Hrun _ eq_refl).
  destruct (dealCommunity_moves (cardsToAdd (stage s)) (deck s) (communityCards s))
    as (moved & Hd & Hc & Hl).
  exists moved. cbn [deck communityCards withDeck withCommunityCards].
  split; [done|]. split; [done|]. split; [done|]. split; [done|].
  unfold cardCount. cbn [deck communityCards players withDeck withCommunityCards].
  rewrite Hc, length_app, length_fmap, length_reverse.
  apply (f_equal length) in Hd. rewrite length_app in Hd. lia.
Qed.

(** X12. [dealCommunityCards] with any deck, short or not: it moves
    [min(n, deck.length)] cards, top card first, from the deck to the end of
    the community cards and turns them face up, where [n] is 3 at the flop,
    1 at the turn and the river and 0 at any other stage; players, pot,
    bets and stage are left as they are, and the number of cards on the
    table is unchanged. *)
Theorem dealCommunityCards_any_deck (s : GameState) :
  ∃ moved,
    deck s = deck (dealCommunityCards s) ++ moved ∧
    communityCards (dealCommunityCards s)
    = communityCards s ++ (withFaceUp true <$> reverse moved) ∧
    length moved = Nat.min (cardsToAdd (stage s)) (length (deck s)) ∧
    dealCommunityCards s
    = withDeck (deck (dealCommunityCards s))
        (withCommunityCards (communityCards (dealCommunityCards s)) s) ∧
    cardCount (dealCommunityCards s) = cardCount s.
Proof.
  apply dealCommunityCards_moves.
Qed.

Lemma allPlayersActed_zero s :
  currentBet s = 0 → Forall (λ p, bet p = 0) (players s) → allPlayersActed s = true.
Proof.
  intros Hcb Hall. unfold allPlayersActed. apply forallb_forall.
  intros p [Hp _]%filter_In. apply list_elem_of_In in Hp.
  rewrite Forall_forall in Hall. rewrite Hcb, (Hall p Hp). reflexivity.
Qed.

(** What an accepted [handleNextStage] emits. *)
Lemma handleNextStage_accepted s :
  allPlayersActed s = true →
  players s = [] ∨ is_Some (playerAt (players s) (dealerIndex s)) →
  ∃ s', handleNextStage s = Returns (Some s') ∧
        stage s' = getNextStage (stage s) ∧
        currentBet s' = 0 ∧ Forall (λ p, bet p = 0) (players s') ∧
        pot s' = pot s ∧
        chips <$> players s' = chips <$> players s ∧
        cards <$> players s' = cards <$> players s ∧
        id <$> players s' = id <$> players s ∧
        isActive <$> players s' = isActive <$> players s ∧
        currentPlayerIndex s' = currentPlayerIndex s ∧
        dealerIndex s' = dealerIndex s ∧
        (∃ moved,
           deck s = deck s' ++ moved ∧
           communityCards s' = communityCards s ++ (withFaceUp true <$> reverse moved) ∧
           length moved
           = Nat.min (cardsToAdd (getNextStage (stage s))) (length (deck s))) ∧
        allPlayersActed s' = true.
Proof.
  unfold handleNextStage. intros -> Hok. simpl.
  set (reset := λ dealer player,
         mkPlayer (id player) (name player) (chips player) (cards player)
                  (isActive player) (isDealer player) (isSmallBlind player)
                  (isBigBlind player) (bool_decide (id player = id dealer))
                  (isAllIn player) 0 (avatarUrl player)).
  assert (∃ ps, (match players s, playerAt (players s) (dealerIndex s) with
                 | [], _ => ps = []
                 | _ :: _, Some dealer => ps = reset dealer <$> players s
                 | _ :: _, None => False
                 end) ∧
                Forall (λ p, bet p = 0) ps ∧
                chips <$> ps = chips <$> players s ∧
                cards <$> ps = cards <$> players s ∧
                id <$> ps = id <$> players s ∧
                isActive <$> ps = isActive <$> players s) as (ps & Hps & Hbets & Hframe).
  { destruct (players s) as [|p0 rest] eqn:Hplayers.
    - exists []. repeat split; constructor.
    - destruct Hok as [?|[dealer Hd]]; [done|]. rewrite Hd.
      exists (reset dealer <$> (p0 :: rest)). split; [done|]. split.
      + apply Forall_fmap, Forall_true. done.
      + rewrite <- !list_fmap_compose. done. }
  set (newState := mkGameState ps (communityCards s) (deck s) (pot s) 0
                     (getNextStage (stage s)) (currentPlayerIndex s) (dealerIndex s)
                     (smallBlindAmount s) (bigBlindAmount s) (Some (dealerIndex s))).
  set (final := match getNextStage (stage s) with
                | flop | turn | river => dealCommunityCards newState
                | _ => newState
                end).
  assert (final = dealCommunityCards newState) as Hdeal.
  { unfold final, dealCommunityCards. cbn [stage newState].
    by destruct (getNextStage (stage s)). }
  destruct (dealCommunityCards_moves newState) as (moved & Hd & Hc & Hl & Hfinal & _).
  rewrite <- Hdeal in Hd, Hc, Hfinal.
  exists final. split.
  { unfold final, newState.
    destruct (players s) as [|p0 rest] eqn:Hplayers; [by rewrite Hps|].
    destruct (playerAt (p0 :: rest) (dealerIndex s)); [by rewrite Hps|done]. }
  destruct Hframe as (Hchips & Hcards & Hids & Hact).
  split; [by rewrite Hfinal|]. split; [by rewrite Hfinal|].
  split; [by rewrite Hfinal|]. split; [by rewrite Hfinal|].
  split; [by rewrite Hfinal|]. split; [by rewrite Hfinal|].
  split; [by rewrite Hfinal|]. split; [by rewrite Hfinal|].
  split; [by rewrite Hfinal|]. split; [by rewrite Hfinal|].
  split; [by exists moved|].
  apply allPlayersActed_zero; by rewrite Hfinal.
Qed.

Lemma cardCount_moved s s' moved :
  deck s = deck s' ++ moved →
  communityCards s' = communityCards s ++ (withFaceUp true <$> reverse moved) →
  cards <$> players s' = cards <$> players s →
  cardCount s' = cardCount s.
Proof.
  intros Hd Hc Hcards. unfold cardCount.
  rewrite Hc, Hcards, Hd, !length_app, length_fmap, length_reverse. lia.
Qed.

(** X13. [handleNextStage]: it does nothing unless all players have acted;
    it raises a TypeError when there are players but none at [dealerIndex];
    otherwise it moves to the next stage, resets every bet and the current
    bet to 0 and deals the community cards of the new stage from the top of
    the deck, while chips, pot, hands, ids, activity, [currentPlayerIndex]
    and the number of cards on the table stay as they are.  The state it
    emits again counts as "all players acted", so the stage can be advanced
    again without any action. *)
Theorem handleNextStage_effect (s : GameState) :
  (allPlayersActed s = false → handleNextStage s = Returns None) ∧
  (allPlayersActed s = true → players s ≠ [] →
     playerAt (players s) (dealerIndex s) = None → handleNextStage s = Throws) ∧
  (allPlayersActed s = true →
     players s = [] ∨ is_Some (playerAt (players s) (dealerIndex s)) →
     ∃ s', handleNextStage s = Returns (Some s') ∧
           stage s' = getNextStage (stage s) ∧
           currentBet s' = 0 ∧ Forall (λ p, bet p = 0) (players s') ∧
           pot s' = pot s ∧
           chips <$> players s' = chips <$> players s ∧
           cards <$> players s' = cards <$> players s ∧
           id <$> players s' = id <$> players s ∧
           isActive <$> players s' = isActive <$> players s ∧
           currentPlayerIndex s' = currentPlayerIndex s ∧
           (∃ moved,
              deck s = deck s' ++ moved ∧
              communityCards s' = communityCards s ++ (withFaceUp true <$> reverse moved) ∧
              length moved
              = Nat.min (cardsToAdd (getNextStage (stage s))) (length (deck s))) ∧
           cardCount s' = cardCount s ∧
           allPlayersActed s' = true).
Proof.
  split; [unfold handleNextStage; by intros ->|]. split.
  - unfold handleNextStage. intros -> Hne Hno. simpl. rewrite Hno. by destruct (players s).
  - intros Hacted Hok.
    destruct (handleNextStage_accepted s Hacted Hok) as
      (s' & Hrun & Hst & Hcb & Hbets & Hpot & Hchips & Hcards & Hids & Hact & Hcur & _
          & (moved & Hd & Hc & Hl) & Hall).
    exists s'. repeat split; try done; [by exists moved|].
    by eapply cardCount_moved.
Qed.

Lemma handleNextStage_effect_witness :
  ∃ s', handleNextStage table0 = Returns (Some s') ∧ stage s' = flop ∧
        cardCount s' = 52%nat.
Proof.
  destruct (handleNextStage_effect table0) as (_ & _ & Hacc).
  destruct Hacc as (s' & Hrun & Hstage & _ & _ & _ & _ & _ & _ & _ & _ & _ & Hcount & _).
  - reflexivity.
  - right. by eexists.
  - exists s'. split; [exact Hrun|]. split; [exact Hstage|]. by rewrite Hcount.
Defined.

(** ** Further properties: the table [initializeGame] builds *)

Lemma orderedDeck_face_down : Forall (λ c, faceUp c = false) orderedDeck.
Proof. apply (bool_decide_unpack _). vm_compute. exact I. Qed.

Lemma createDeck_face_down rnd : Forall (λ c, faceUp c = false) (createDeck rnd).
Proof.
  unfold createDeck.
  pose proof (shuffleDeck_perm rnd orderedDeck) as Hperm.
  generalize dependent (shuffleDeck rnd orderedDeck). intros d Hperm.
  rewrite Hperm. apply orderedDeck_face_down.
Qed.

Lemma initializeGame_players rnd playerCount initialChips smallBlind bigBlind :
  let g := initializeGame rnd playerCount initialChips smallBlind bigBlind in
  let count := Nat.min (Nat.max playerCount 2) 10 in
  length (players g) = count ∧
  distinctIds g ∧
  Forall (λ p, chips p + bet p = initialChips ∧ isActive p = true ∧ isAllIn p = false
               ∧ cards p = []) (players g) ∧
  totalChips g = Z.of_nat count * initialChips - smallBlind - bigBlind ∧
  totalBets g = smallBlind + bigBlind ∧
  ((3 ≤ count)%nat →
     Forall (λ p, bet p = if isSmallBlind p then smallBlind
                          else if isBigBlind p then bigBlind else 0) (players g)) ∧
  isTurn <$> players g
  = (λ i, bool_decide (i = if bool_decide (count ≤ 3)%nat then 0 else 3)%nat) <$> seq 0 count ∧
  isDealer <$> players g = (λ i, bool_decide (i = 0)%nat) <$> seq 0 count.
Proof.
  cbn zeta. unfold initializeGame, distinctIds, totalChips, totalBets.
  cbn [players].
  remember (Nat.min (Nat.max playerCount 2) 10) as count eqn:Hcount.
  assert (2 ≤ count ≤ 10)%nat as Hrange by lia. clear Hcount.
  do 11 (destruct count as [|count];
         [ first
             [ lia
             | split; [reflexivity|];
               split; [apply (bool_decide_unpack _); vm_compute; exact I|];
               split; [repeat constructor; simpl; lia|];
               split; [simpl; lia|];
               split; [simpl; lia|];
               split; [intros ?; first [lia | repeat constructor]|];
               split; reflexivity ]
         | ]).
  lia.
Qed.

(** X14. The table [initializeGame] builds, for every requested player
    count: the count is clamped to 2..10; ids are distinct; every player is
    active with an empty hand and has [chips + bet = initialChips]; the bets
    add up to the pot, so [Σ chips + pot] is [count × initialChips]; the deck
    holds 52 face-down cards and no card is anywhere else: hands and
    community cards are empty; [currentPlayerIndex] is the seat [3 % count]
    and [dealerIndex] is seat 0; from three players on, each blind is paid
    by the player flagged for it; exactly one player is flagged [isTurn],
    the one at seat 0 on a table of two or three and at seat 3 otherwise,
    and that player sits at [currentPlayerIndex] unless the table has two
    players. *)
Theorem initializeGame_table (rnd : RandomSource) (playerCount : nat)
    (initialChips smallBlind bigBlind : Z) :
  let g := initializeGame rnd playerCount initialChips smallBlind bigBlind in
  let count := Nat.min (Nat.max playerCount 2) 10 in
  length (players g) = count ∧ (2 ≤ count ≤ 10)%nat ∧
  distinctIds g ∧
  Forall (λ p, chips p + bet p = initialChips ∧ isActive p = true ∧ isAllIn p = false
               ∧ cards p = []) (players g) ∧
  totalBets g = pot g ∧
  chipsPot g = Z.of_nat count * initialChips ∧
  cardCount g = 52%nat ∧ Forall (λ c, faceUp c = false) (deck g) ∧
  length (deck g) = 52%nat ∧ communityCards g = [] ∧
  cursorValid g ∧ is_Some (playerAt (players g) (dealerIndex g)) ∧
  currentPlayerIndex g = Idx (3 mod count) ∧ dealerIndex g = Idx 0 ∧
  ((3 ≤ count)%nat →
     Forall (λ p, bet p = if isSmallBlind p then smallBlind
                          else if isBigBlind p then bigBlind else 0) (players g)) ∧
  (∃ k pk, k = (if bool_decide (count ≤ 3)%nat then 0 else 3)%nat ∧
           (k < count)%nat ∧
           players g !! k = Some pk ∧ isTurn pk = true ∧
           (∀ i p, players g !! i = Some p → isTurn p = bool_decide (i = k)) ∧
           (Idx k = currentPlayerIndex g ↔ count ≠ 2%nat)) ∧
  (∀ p, playerAt (players g) (currentPlayerIndex g) = Some p →
        isTurn p = negb (bool_decide (count = 2%nat))).
Proof.
  cbn zeta.
  destruct (initializeGame_players rnd playerCount initialChips smallBlind bigBlind)
    as (Hlen & Hnd & Hall & Hchips & Hbets & Hblinds & Hturn & Hdealer).
  set (g := initializeGame rnd playerCount initialChips smallBlind bigBlind) in *.
  set (count := Nat.min (Nat.max playerCount 2) 10) in *.
  assert (2 ≤ count ≤ 10)%nat as Hrange by (unfold count; lia).
  assert (∀ i p, players g !! i = Some p →
            isTurn p = bool_decide (i = if bool_decide (count ≤ 3)%nat then 0 else 3)%nat)
    as Hflag.
  { intros i p Hi.
    assert ((isTurn <$> players g) !! i = Some (isTurn p)) as H
      by (by rewrite list_lookup_fmap, Hi).
    rewrite Hturn, list_lookup_fmap in H.
    destruct (seq 0 count !! i) as [j|] eqn:Hj; simplify_eq/=.
    apply lookup_seq in Hj as [-> _]. done. }
  split; [done|]. split; [done|]. split; [done|]. split; [done|].
  split; [by rewrite Hbets|].
  split; [unfold chipsPot; rewrite Hchips; change (pot g) with (smallBlind + bigBlind); lia|].
  split.
  { rewrite cardCount_withCards_nil; [apply createDeck_length| |done].
    eapply Forall_impl; [exact Hall|]. by intros p (_ & _ & _ & ?). }
  split; [apply createDeck_face_down|].
  split; [apply createDeck_length|]. split; [done|].
  split.
  { exists (3 mod count)%nat. split; [done|]. rewrite Hlen.
    apply Nat.mod_upper_bound. lia. }
  split.
  { change (dealerIndex g) with (Idx 0). cbn [playerAt].
    apply lookup_lt_is_Some_2. rewrite Hlen. lia. }
  split; [done|]. split; [done|]. split; [done|]. split.
  { set (k := (if bool_decide (count ≤ 3)%nat then 0 else 3)%nat) in *.
    assert (k < count)%nat as Hk by (unfold k; case_bool_decide; lia).
    destruct (lookup_lt_is_Some_2 (players g) k) as [pk Hpk]; [by rewrite Hlen|].
    exists k, pk. split; [done|]. split; [done|]. split; [done|]. split.
    { rewrite (Hflag _ _ Hpk). by apply bool_decide_eq_true. }
    split; [done|].
    change (currentPlayerIndex g) with (Idx (3 mod count)).
    unfold k. split.
    - intros Heq Hc2. rewrite Hc2 in Heq. discriminate Heq.
    - intros Hc2. f_equal. case_bool_decide.
      + assert (count = 3)%nat as -> by lia. reflexivity.
      + symmetry. apply Nat.mod_small. lia. }
  intros p Hp. change (currentPlayerIndex g) with (Idx (3 mod count)) in Hp.
  cbn [playerAt] in Hp.
  rewrite (Hflag _ _ Hp).
  destruct (decide (count = 2)%nat) as [H2|H2].
  - rewrite H2. reflexivity.
  - rewrite (bool_decide_eq_false_2 _ H2). simpl. apply bool_decide_eq_true.
    destruct (decide (count = 3)%nat) as [->|]; [reflexivity|].
    rewrite bool_decide_eq_false_2 by lia. apply Nat.mod_small. lia.
Qed.

(** ** Further properties: a whole hand *)

Lemma fmap_eq_lookup {A B} (f : A → B) (l l' : list A) i x' :
  f <$> l' = f <$> l → l' !! i = Some x' → ∃ x, l !! i = Some x ∧ f x' = f x.
Proof.
  intros Heq Hi.
  assert ((f <$> l) !! i = Some (f x')) as H by (by rewrite <- Heq, list_lookup_fmap, Hi).
  rewrite list_lookup_fmap in H. destruct (l !! i) as [x|]; simplify_eq/=. eauto.
Qed.

Lemma fmap_eq_length {A B} (f : A → B) (l l' : list A) :
  f <$> l' = f <$> l → length l' = length l.
Proof. intros H. apply (f_equal length) in H. by rewrite !length_fmap in H. Qed.

(** A table stays in good standing when ids and chips are kept, the pot is
    kept, and the bets are kept along with the current bet or all reset to
    zero. *)
Lemma tableSane_kept s s' :
  id <$> players s' = id <$> players s →
  chips <$> players s' = chips <$> players s →
  pot s' = pot s →
  (bet <$> players s' = bet <$> players s ∧ currentBet s' = currentBet s)
  ∨ (Forall (λ p, bet p = 0) (players s') ∧ currentBet s' = 0) →
  tableSane s → tableSane s'.
Proof.
  intros Hid Hchips Hpot Hbets (Hnd & Hcb & Hp & Hall).
  unfold tableSane, distinctIds. rewrite Hid, Hpot.
  split; [done|]. split; [destruct Hbets as [[_ ->]|[_ ->]]; [done|lia]|]. split; [done|].
  apply Forall_lookup. intros i p' Hi.
  destruct (fmap_eq_lookup chips _ _ _ _ Hchips Hi) as (p & Hp1 & Hc).
  pose proof (Forall_lookup_1 _ _ _ _ Hall Hp1) as (? & ? & ?).
  destruct Hbets as [[Hb ->]|[Hz ->]].
  - destruct (fmap_eq_lookup bet _ _ _ _ Hb Hi) as (q & Hq & Hbq). simplify_eq. lia.
  - pose proof (Forall_lookup_1 _ _ _ _ Hz Hi) as Hzero. simpl in Hzero. lia.
Qed.

Lemma sumZ_fmap_eq (l l' : list Z) : l' = l → sumZ l' = sumZ l.
Proof. by intros ->. Qed.

Lemma handInvariant_kept count total s s' :
  id <$> players s' = id <$> players s →
  chips <$> players s' = chips <$> players s →
  pot s' = pot s →
  currentPlayerIndex s' = currentPlayerIndex s →
  dealerIndex s' = dealerIndex s →
  cardCount s' = cardCount s →
  handInvariant count total s → handInvariant count total s'.
Proof.
  intros Hid Hchips Hpot Hcur Hdeal Hcards (Hlen & Hnd & Hc & Hd & Hcc & Htot).
  pose proof (fmap_eq_length _ _ _ Hid) as Hl.
  unfold handInvariant, distinctIds, cursorValid, dealerValid, chipsPot, totalChips in *.
  rewrite Hid, Hchips, Hpot, Hcur, Hdeal, Hcards, Hl. done.
Qed.

Lemma Forall2_withCards_fmap {B} (f : Player → B) (ps ps' : list Player) :
  (∀ c p, f (withCards c p) = f p) →
  Forall2 (λ p p', p' = withCards (cards p') p) ps ps' → f <$> ps' = f <$> ps.
Proof.
  intros Hf. induction 1 as [|p p' ps ps' Hp _ IH]; [done|].
  rewrite !fmap_cons, IH. f_equal. by rewrite Hp.
Qed.

(** The deal of the hole cards. *)
Lemma dealCards_step count total s :
  handInvariant count total s →
  handInvariant count total (dealCards s) ∧ (tableSane s → tableSane (dealCards s)).
Proof.
  intros Hinv.
  destruct (dealCards_conserves s) as (removed & Hd & Hs & Hf & Hperm).
  pose proof (Forall2_withCards_fmap id _ _ ltac:(done) Hf) as Hid.
  pose proof (Forall2_withCards_fmap chips _ _ ltac:(done) Hf) as Hchips.
  pose proof (Forall2_withCards_fmap bet _ _ ltac:(done) Hf) as Hbet.
  split.
  - eapply handInvariant_kept; try done; try (by rewrite Hs).
    apply dealCards_cardCount.
  - apply tableSane_kept; try done; try (by rewrite Hs).
    left. split; [done|]. by rewrite Hs.
Qed.

(** The advance to the next stage. *)
Lemma handleNextStage_step count total s :
  handInvariant count total s →
  ∃ s', settle s (handleNextStage s) = Returns s' ∧
        handInvariant count total s' ∧ (tableSane s → tableSane s').
Proof.
  intros Hinv.
  destruct (allPlayersActed s) eqn:Hacted.
  2:{ exists s. split; [|done]. unfold handleNextStage. by rewrite Hacted. }
  destruct Hinv as (Hlen & Hnd & Hc & (d & Hd & Hdl) & Hcc & Htot).
  destruct (handleNextStage_accepted s Hacted) as
    (s' & Hrun & _ & Hcb & Hbets & Hpot & Hchips & Hcards & Hids & _ & Hcur & Hdeal
        & (moved & Hdk & Hcm & _) & _).
  { right. rewrite Hd. simpl. by apply lookup_lt_is_Some_2. }
  exists s'. rewrite Hrun. split; [done|]. split.
  - eapply handInvariant_kept; try done.
    + by eapply cardCount_moved.
    + repeat split; try done. by exists d.
  - apply tableSane_kept; try done. by right.
Qed.

Lemma acceptedMove_frame m seat p s :
  players s !! seat = Some p →
  let s1 := acceptedMove m seat p s in
  cards <$> players s1 = cards <$> players s ∧
  deck s1 = deck s ∧ communityCards s1 = communityCards s ∧
  dealerIndex s1 = dealerIndex s.
Proof.
  intros Hl. destruct m; simpl; repeat split; try done;
    rewrite list_fmap_insert; apply list_insert_id; by rewrite list_lookup_fmap, Hl.
Qed.

(** A betting action. *)
Lemma perform_hand_step count total a s :
  handInvariant count total s →
  ∃ s', settle s (perform a s) = Returns s' ∧
        handInvariant count total s' ∧ (tableSane s → tableSane s').
Proof.
  intros Hinv. pose proof Hinv as (Hlen & Hnd & Hc & Hd & Hcc & Htot).
  destruct (perform_step a s Hnd) as [Hstep Htotal].
  destruct (Htotal Hc) as [s' Hrun]. exists s'. split; [done|].
  split; [|intros Hsane; by eapply perform_sane].
  destruct (Hstep s' Hrun) as [(Hcp & _ & Hids) Hcur].
  assert (dealerIndex s' = dealerIndex s ∧ cardCount s' = cardCount s) as [Hdi Hcount].
  { destruct a as [who m].
    destruct (perform (who, m) s) as [[s1|]| |] eqn:Hp; simplify_eq/=; [|done].
    destruct (perform_emitted s who m s' Hnd Hp) as (seat & p & Hseat & _ & _ & Hn).
    destruct (currentSeat_Some _ _ _ _ Hseat) as (_ & Hl & _).
    destruct (nextPlayer_Returns_inv _ _ Hn) as (k & pk & -> & _).
    destruct (acceptedMove_frame m seat p s Hl) as (Hcards & Hdk & Hcm & Hdi).
    split; [done|]. unfold cardCount, turnAt.
    cbn [deck communityCards players withPlayers withCurrentPlayerIndex].
    by rewrite fmap_markTurn, Hcards, Hdk, Hcm. }
  pose proof (fmap_eq_length _ _ _ Hids) as Hl.
  destruct Hd as (d & Hd & Hdl).
  unfold handInvariant, distinctIds, dealerValid. rewrite Hids, Hl, Hdi, Hcount, Hcp.
  repeat split; try done; [by apply Hcur|by exists d].
Qed.

Lemma runOps_invariant count total ops : ∀ s,
  handInvariant count total s →
  ∃ s', runOps ops s = Returns s' ∧
        handInvariant count total s' ∧ (tableSane s → tableSane s').
Proof.
  induction ops as [|op rest IH]; intros s Hinv; simpl; [by eauto|].
  assert (∃ s1, runOp op s = Returns s1 ∧ handInvariant count total s1 ∧
                (tableSane s → tableSane s1)) as (s1 & -> & Hinv1 & Hsane1).
  { destruct op as [a| |]; simpl.
    - by apply perform_hand_step.
    - eexists. split; [done|]. by apply dealCards_step.
    - by apply handleNextStage_step. }
  destruct (IH s1 Hinv1) as (s' & Hrun & Hinv' & Hsane').
  exists s'. split; [done|]. split; [done|]. auto.
Qed.

Lemma initializeGame_handInvariant rnd playerCount initialChips smallBlind bigBlind :
  let count := Nat.min (Nat.max playerCount 2) 10 in
  handInvariant count (Z.of_nat count * initialChips)
    (initializeGame rnd playerCount initialChips smallBlind bigBlind).
Proof.
  cbn zeta.
  destruct (initializeGame_players rnd playerCount initialChips smallBlind bigBlind)
    as (Hlen & Hnd & Hall & Hchips & Hbets & _).
  set (g := initializeGame rnd playerCount initialChips smallBlind bigBlind) in *.
  set (count := Nat.min (Nat.max playerCount 2) 10) in *.
  assert (2 ≤ count ≤ 10)%nat as Hrange by (unfold count; lia).
  split; [done|]. split; [done|]. split.
  { exists (3 mod count)%nat. split; [done|]. rewrite Hlen.
    apply Nat.mod_upper_bound. lia. }
  split; [exists 0%nat; split; [done|]; rewrite Hlen; lia|]. split.
  { rewrite cardCount_withCards_nil; [apply createDeck_length| |done].
    eapply Forall_impl; [exact Hall|]. by intros p (_ & _ & _ & ?). }
  unfold chipsPot. rewrite Hchips. change (pot g) with (smallBlind + bigBlind). lia.
Qed.

(** X15. A hand played on the table [initializeGame] builds never gets
    stuck and loses nothing: every sequence of betting actions, deals of the
    hole cards and stage advances runs to its end without TypeError or
    endless loop, and the state it reaches still has the same number of
    players with distinct ids, [currentPlayerIndex] and [dealerIndex] at
    seats, 52 cards between deck, hands and community cards, and
    [Σ chips + pot = count × initialChips].  If moreover
    [0 ≤ smallBlind ≤ bigBlind ≤ initialChips], no chips, bet or pot is ever
    negative and no bet exceeds the current bet. *)
Theorem hand_never_stuck (rnd : RandomSource) (playerCount : nat)
    (initialChips smallBlind bigBlind : Z) (ops : list TableOp) :
  let count := Nat.min (Nat.max playerCount 2) 10 in
  ∃ s', runOps ops (initializeGame rnd playerCount initialChips smallBlind bigBlind)
        = Returns s' ∧
        handInvariant count (Z.of_nat count * initialChips) s' ∧
        (0 ≤ smallBlind ≤ bigBlind → bigBlind ≤ initialChips → tableSane s').
Proof.
  cbn zeta.
  destruct (runOps_invariant _ _ ops _
              (initializeGame_handInvariant rnd playerCount initialChips smallBlind bigBlind))
    as (s' & Hrun & Hinv & Hsane).
  exists s'. split; [done|]. split; [done|].
  intros Hblinds Hcover. apply Hsane.
  destruct (initializeGame_players rnd playerCount initialChips smallBlind bigBlind)
    as (Hlen & Hnd & _).
  split; [done|]. split; [simpl; lia|]. split; [simpl; lia|].
  clear -Hblinds Hcover.
  unfold initializeGame. cbn [players currentBet].
  remember (Nat.min (Nat.max playerCount 2) 10) as count eqn:Hcount.
  assert (2 ≤ count ≤ 10)%nat as Hrange by lia. clear Hcount.
  do 11 (destruct count as [|count];
         [ first [ lia | repeat constructor; simpl; lia ] | ]).
  lia.
Qed.

(** ** Further properties: the next hand and the board *)

Lemma handleNewGame_seats s d :
  dealerIndex s = Idx d → players s ≠ [] →
  let n := length (players s) in
  let s' := handleNewGame s in
  length (players s') = n ∧
  id <$> players s' = id <$> players s ∧
  dealerIndex s' = Idx ((d + 1) mod n) ∧
  (∀ i p, players s' !! i = Some p →
          isDealer p = bool_decide (i = (d + 1) mod n)%nat ∧
          isSmallBlind p = bool_decide (i = (d + 2) mod n)%nat ∧
          isBigBlind p = bool_decide (i = (d + 3) mod n)%nat ∧
          isTurn p = bool_decide (i = (d + 4) mod n)%nat ∧
          isActive p = true ∧ isAllIn p = false ∧ bet p = 0).
Proof.
  intros Hd Hne. cbn zeta. unfold handleNewGame. rewrite Hd.
  destruct (length (players s)) as [|m] eqn:Hlen.
  { destruct (players s); [done|discriminate]. }
  cbn [idxAdd idxMod].
  set (ps := imap _ (players s)).
  set (s0 := mkGameState _ _ _ _ _ _ _ _ _ _ _).
  destruct (dealCards_conserves s0) as (popped & _ & Hs & Hf & _).
  pose proof (Forall2_withCards_fmap id _ _ ltac:(done) Hf) as Hid.
  change (players s0) with ps in Hid, Hf.
  assert (id <$> ps = id <$> players s) as Hps.
  { unfold ps. rewrite fmap_imap. rewrite <- (imap_const id). by apply imap_ext. }
  split; [rewrite <- Hlen; apply (fmap_eq_length id); congruence|].
  split; [congruence|]. split; [by rewrite Hs|].
  intros i p Hi.
  destruct (Forall2_lookup_r _ _ _ _ _ Hf Hi) as (p0 & Hp0 & ->).
  unfold ps in Hp0. rewrite list_lookup_imap in Hp0.
  destruct (players s !! i) as [q|]; simplify_eq/=. done.
Qed.

(** X16. Starting the next hand on a table with players and a numeric
    [dealerIndex] [d] moves the button one seat on, [(d + 1) % n], and flags
    the seats [(d + 1) % n], [(d + 2) % n], [(d + 3) % n] and [(d + 4) % n] -
    and no others - as dealer, small blind, big blind and player to act;
    every player is active again, not all-in, with [bet = 0] (the blinds are
    not posted), the players and their ids stay, and [currentPlayerIndex] is
    left where the last hand ended.  After [k + 1] hands started in a row
    the button is at [(d + k + 1) % n]: it comes round after [n] hands. *)
Theorem handleNewGame_rotates (s : GameState) (d : nat) :
  dealerIndex s = Idx d → players s ≠ [] →
  let n := length (players s) in
  let s' := handleNewGame s in
  id <$> players s' = id <$> players s ∧
  dealerIndex s' = Idx ((d + 1) mod n) ∧
  currentPlayerIndex s' = currentPlayerIndex s ∧
  stage s' = preflop ∧
  (∀ i p, players s' !! i = Some p →
          isDealer p = bool_decide (i = (d + 1) mod n)%nat ∧
          isSmallBlind p = bool_decide (i = (d + 2) mod n)%nat ∧
          isBigBlind p = bool_decide (i = (d + 3) mod n)%nat ∧
          isTurn p = bool_decide (i = (d + 4) mod n)%nat ∧
          isActive p = true ∧ isAllIn p = false ∧ bet p = 0) ∧
  (∀ k, dealerIndex (Nat.iter (S k) handleNewGame s) = Idx ((d + S k) mod n)).
Proof.
  intros Hd Hne. cbn zeta.
  destruct (handleNewGame_seats s d Hd Hne) as (Hlen & Hid & Hdeal & Hflags).
  split; [done|]. split; [done|].
  assert (∀ t, currentPlayerIndex (handleNewGame t) = currentPlayerIndex t
               ∧ stage (handleNewGame t) = preflop) as Hkeep.
  { intros t. unfold handleNewGame.
    set (t0 := mkGameState _ _ _ _ _ _ _ _ _ _ _).
    destruct (dealCards_conserves t0) as (popped & _ & -> & _). done. }
  split; [apply Hkeep|]. split; [apply Hkeep|]. split; [done|].
  intros k.
  assert (length (players (Nat.iter (S k) handleNewGame s)) = length (players s) ∧
          dealerIndex (Nat.iter (S k) handleNewGame s)
          = Idx ((d + S k) mod length (players s))) as [_ ?]; [|done].
  induction k as [|k [IHl IHd]].
  { simpl. by rewrite Nat.add_1_r in *. }
  change (Nat.iter (S (S k)) handleNewGame s)
    with (handleNewGame (Nat.iter (S k) handleNewGame s)).
  set (t := Nat.iter (S k) handleNewGame s) in *.
  assert (players t ≠ []) as Hnt.
  { intros Hnil. rewrite Hnil in IHl. destruct (players s); [done|discriminate]. }
  destruct (handleNewGame_seats t _ IHd Hnt) as (Hl & _ & Hdl & _).
  split; [congruence|]. rewrite Hdl, IHl.
  f_equal. rewrite Nat.Div0.add_mod_idemp_l. f_equal. lia.
Qed.

Lemma handleNewGame_rotates_witness :
  dealerIndex (handleNewGame tableBet10) = Idx 1 ∧
  dealerIndex (Nat.iter 3 handleNewGame tableBet10) = Idx 0.
Proof.
  pose proof (handleNewGame_rotates tableBet10 0 eq_refl ltac:(discriminate))
    as (_ & Hd & _ & _ & _ & Hk).
  split; [exact Hd|exact (Hk 2%nat)].
Defined.

Lemma advance_step s :
  allPlayersActed s = true → dealerValid s →
  ∃ s', runOp Advance s = Returns s' ∧
        stage s' = getNextStage (stage s) ∧
        allPlayersActed s' = true ∧ dealerValid s' ∧
        pot s' = pot s ∧
        chips <$> players s' = chips <$> players s ∧
        cards <$> players s' = cards <$> players s ∧
        (∃ moved,
           deck s = deck s' ++ moved ∧
           communityCards s' = communityCards s ++ (withFaceUp true <$> reverse moved) ∧
           length moved
           = Nat.min (cardsToAdd (getNextStage (stage s))) (length (deck s))).
Proof.
  intros Hacted (d & Hd & Hdl).
  destruct (handleNextStage_accepted s Hacted) as
    (s' & Hrun & Hst & _ & _ & Hpot & Hchips & Hcards & Hids & _ & _ & Hdeal
        & Hmoved & Hacted').
  { right. rewrite Hd. simpl. by apply lookup_lt_is_Some_2. }
  exists s'. simpl. rewrite Hrun. repeat split; try done.
  exists d. split; [congruence|]. by rewrite (fmap_eq_length _ _ _ Hids).
Qed.

(** X17. Betting rounds can be skipped: once every player has acted
    preflop, [handleNextStage] is accepted three times in a row (each
    advance zeroes the bets, so all players count as having acted again),
    and with five cards or more in the deck the table is then at the river
    with a five-card board: the last five cards of the old deck, face up,
    in the order they came off its end - no card is burnt - while chips,
    hole cards and pot are untouched.  Two more advances reach ["ended"]
    through showdown and deal nothing. *)
Theorem board_without_betting (s : GameState) :
  stage s = preflop → allPlayersActed s = true → dealerValid s →
  (5 ≤ length (deck s))%nat →
  ∃ s3 s5 board,
    runOps [Advance; Advance; Advance] s = Returns s3 ∧
    stage s3 = river ∧
    length board = 5%nat ∧
    deck s = deck s3 ++ board ∧
    communityCards s3 = communityCards s ++ (withFaceUp true <$> reverse board) ∧
    pot s3 = pot s ∧
    chips <$> players s3 = chips <$> players s ∧
    cards <$> players s3 = cards <$> players s ∧
    runOps [Advance; Advance] s3 = Returns s5 ∧
    stage s5 = ended ∧
    deck s5 = deck s3 ∧ communityCards s5 = communityCards s3.
Proof.
  intros Hst Hacted Hdeal Hdeck.
  destruct (advance_step s Hacted Hdeal)
    as (s1 & Hr1 & Hst1 & Ha1 & Hd1 & Hp1 & Hc1 & Hh1 & m1 & Hk1 & Hb1 & Hl1).
  destruct (advance_step s1 Ha1 Hd1)
    as (s2 & Hr2 & Hst2 & Ha2 & Hd2 & Hp2 & Hc2 & Hh2 & m2 & Hk2 & Hb2 & Hl2).
  destruct (advance_step s2 Ha2 Hd2)
    as (s3 & Hr3 & Hst3 & Ha3 & Hd3 & Hp3 & Hc3 & Hh3 & m3 & Hk3 & Hb3 & Hl3).
  destruct (advance_step s3 Ha3 Hd3)
    as (s4 & Hr4 & Hst4 & Ha4 & Hd4 & _ & _ & _ & m4 & Hk4 & Hb4 & Hl4).
  destruct (advance_step s4 Ha4 Hd4)
    as (s5 & Hr5 & Hst5 & _ & _ & _ & _ & _ & m5 & Hk5 & Hb5 & Hl5).
  rewrite Hst in Hst1, Hl1. rewrite Hst1 in Hst2, Hl2. rewrite Hst2 in Hst3, Hl3.
  rewrite Hst3 in Hst4, Hl4. rewrite Hst4 in Hst5, Hl5.
  cbn [getNextStage cardsToAdd] in *.
  assert (m4 = []) as -> by (apply length_zero_iff_nil; lia).
  assert (m5 = []) as -> by (apply length_zero_iff_nil; lia).
  rewrite app_nil_r in Hk4, Hk5. simpl in Hb4, Hb5. rewrite app_nil_r in Hb4, Hb5.
  assert (length (deck s) = length (deck s1) + length m1)%nat as Hlen1
    by (by rewrite Hk1, length_app).
  assert (length (deck s1) = length (deck s2) + length m2)%nat as Hlen2
    by (by rewrite Hk2, length_app).
  exists s3, s5, (m3 ++ m2 ++ m1).
  cbn [runOps]. rewrite Hr1, Hr2, Hr3, Hr4, Hr5.
  split; [done|]. split; [done|].
  split; [rewrite !length_app; lia|].
  split; [by rewrite Hk1, Hk2, Hk3, <- !app_assoc|].
  split.
  { rewrite Hb3, Hb2, Hb1, !reverse_app, !fmap_app, <- !app_assoc. done. }
  split; [congruence|]. split; [congruence|]. split; [congruence|].
  split; [done|]. split; [done|]. split; congruence.
Qed.

Lemma board_without_betting_witness :
  ∃ s3 s5 board,
    runOps [Advance; Advance; Advance] table0 = Returns s3 ∧
    stage s3 = river ∧
    length board = 5%nat ∧
    deck table0 = deck s3 ++ board ∧
    communityCards s3 = communityCards table0 ++ (withFaceUp true <$> reverse board) ∧
    pot s3 = pot table0 ∧
    chips <$> players s3 = chips <$> players table0 ∧
    cards <$> players s3 = cards <$> players table0 ∧
    runOps [Advance; Advance] s3 = Returns s5 ∧
    stage s5 = ended ∧
    deck s5 = deck s3 ∧ communityCards s5 = communityCards s3.
Proof.
  apply (board_without_betting table0).
  - reflexivity.
  - reflexivity.
  - exists 0%nat. split; [reflexivity|]. simpl. lia.
  - vm_compute. lia.
Defined.
